(** * QCpy: the single-qubit-gate register simulator of [QuantumCircuit.py]

    A shallow embedding of the class [QuantumCircuit] and the properties of
    its gate operations, of [probabilities] and of [measure].

    Numbers.  Python's [complex] and NumPy's [complex128] are modelled by
    exact complex numbers over Rocq's real numbers: a pair of a real and an
    imaginary part, with the arithmetic of complex numbers written out.
    Every statement about amplitudes and weights over these numbers is a
    statement of exact arithmetic.  Where rounding decides, the module
    [Binary64] has the Hadamard gate on binary64 numbers, with the
    arithmetic IEEE 754 specifies.  Python's integers are unbounded and
    modelled by [Z].

    Strings.  A [string] is a Python string whose characters have code
    points below 256, one [ascii] for each character; strings with other
    characters are outside the model.

    Effects.  A method is a function from the object [self] to an outcome and
    the object after the call.  An outcome is a value or a raised exception.

    NumPy.  [numpy.dot], [numpy.kron], [numpy.square] and [numpy.abs] are
    written out on lists.  The random draw of [numpy.random.choice] is
    modelled by a relation: the call may return every element whose weight
    is positive.  The draw is made from the array that NumPy builds from the
    list of outcomes, so the model has the element type NumPy gives that
    array and the text [str] writes for an element of it. *)

From Stdlib Require Import Reals Lra Lia ZArith NArith String Ascii.
From Stdlib Require Import DecimalString DecimalZ DecimalFacts.
From Stdlib Require Import Floats.SpecFloat.
From stdpp Require Import base option list.

(** ** Exceptions and outcomes *)

Inductive exn : Set :=
| IndexError   (* an index outside a list *)
| ValueError   (* [int] on a string that is no number, a bad weight list *)
| QubitError.  (* the failure of the qubit constructor on a bit other than 0, 1 *)

Inductive result (A : Type) : Type :=
| Ok (a : A)
| Raise (e : exn).
Arguments Ok {A} a.
Arguments Raise {A} e.

#[global] Instance result_ret : MRet result := fun A a => Ok a.

#[global] Instance result_bind : MBind result := fun A B k r =>
  match r with
  | Ok a => k a
  | Raise e => Raise e
  end.

Definition of_option {A} (e : exn) (o : option A) : result A :=
  match o with
  | Some a => Ok a
  | None => Raise e
  end.

(** ** Complex numbers *)

Module Complex.
Local Open Scope R_scope.

Record C : Type := mkC { re : R; im : R }.

(** [a + bj]: the literal of the source, an integer plus an imaginary literal. *)
Definition lit (a b : R) : C := mkC a b.

Definition Cadd (u v : C) : C := mkC (re u + re v) (im u + im v).

Definition Cmul (u v : C) : C :=
  mkC (re u * re v - im u * im v) (re u * im v + im u * re v).

(** A complex number times a real scalar, and divided by one. *)
Definition Cscale (u : C) (r : R) : C := mkC (re u * r) (im u * r).
Definition Cdiv_real (u : C) (r : R) : C := mkC (re u / r) (im u / r).

(** [numpy.square] on a complex entry. *)
Definition square (u : C) : C := Cmul u u.

(** The squared magnitude [|u|^2] of the Born rule. *)
Definition norm2 (u : C) : R := re u * re u + im u * im u.

Definition C0 : C := mkC 0 0.
Definition C1 : C := mkC 1 0.

Definition is_real (u : C) : Prop := im u = 0.
Definition is_imag (u : C) : Prop := re u = 0.

End Complex.
Import Complex.

(** ** Qubit *)

(** Modelled from the spec: the class [Qubit] of [Qubit.py], which is not
    among the sources.  A qubit holds a 2-element sequence of complex
    amplitudes [[a0, a1]]; it is created from a literal bit, 0 giving [[1,0]]
    and 1 giving [[0,1]], and construction fails on any other value. *)
Record Qubit : Type := mkQubit { a0 : C; a1 : C }.

(** The attribute [state], read as a sequence. *)
Definition state (qb : Qubit) : list C := [a0 qb; a1 qb].

Definition Qubit_new (bit : Z) : result Qubit :=
  match bit with
  | 0%Z => Ok (mkQubit C1 C0)
  | 1%Z => Ok (mkQubit C0 C1)
  | _ => Raise QubitError
  end.

(** ** Small Python primitives *)

(** [int(ch)] on a one-character string whose character has a code point
    below 256: among these characters the decimal digits are '0' to '9';
    a digit gives its value, anything else raises [ValueError]. *)
Definition int_of_char (ch : ascii) : result Z :=
  let n := nat_of_ascii ch in
  if (48 <=? n)%nat && (n <=? 57)%nat then Ok (Z.of_nat (n - 48)) else Raise ValueError.

(** [xs[i]] for a Python list of length [n]: a negative index counts from
    the end, and an index outside [-n, n) raises [IndexError]. *)
Definition py_index (n : nat) (i : Z) : result nat :=
  if (0 <=? i)%Z && (i <? Z.of_nat n)%Z then Ok (Z.to_nat i)
  else if (- Z.of_nat n <=? i)%Z && (i <? 0)%Z then Ok (Z.to_nat (Z.of_nat n + i))
  else Raise IndexError.

(** ** The class QuantumCircuit *)

Record QuantumCircuit : Type := mkQuantumCircuit {
  _bit_str : string;
  _qubit_array : list Qubit
}.

(** The loop of [__init__]: one qubit appended for each character. *)
Fixpoint init_loop (bits : list ascii) (arr : list Qubit) : result (list Qubit) :=
  match bits with
  | [] => Ok arr
  | bit :: rest =>
      b ← int_of_char bit;
      qb ← Qubit_new b;
      init_loop rest (arr ++ [qb])
  end.

Definition __init__ (bit_str : string) : result QuantumCircuit :=
  arr ← init_loop (list_ascii_of_string bit_str) [];
  Ok (mkQuantumCircuit bit_str arr).

(** *** Gates *)

(** A 2x2 matrix as its two rows. *)
Definition Matrix2 : Type := (C * C) * (C * C).

(** [numpy.dot] of a 2x2 matrix and a 2-element vector. *)
Definition dot (g : Matrix2) (v : Qubit) : Qubit :=
  let '((g00, g01), (g10, g11)) := g in
  mkQubit (Cadd (Cmul g00 (a0 v)) (Cmul g01 (a1 v)))
          (Cadd (Cmul g10 (a0 v)) (Cmul g11 (a1 v))).

Definition identity_gate : Matrix2 :=
  ((lit 1 0, lit 0 0), (lit 0 0, lit 1 0)).
Definition x_gate : Matrix2 :=
  ((lit 0 0, lit 1 0), (lit 1 0, lit 0 0)).
Definition y_gate : Matrix2 :=
  ((lit 0 0, lit 0 (-1)), (lit 0 1, lit 0 0)).
Definition z_gate : Matrix2 :=
  ((lit 1 0, lit 0 0), (lit 0 0, lit (-1) 0)).

(** [np.array(m) * 1 / sqrt(2)] in exact arithmetic: every entry times 1,
    then divided by the real number that is the square root of 2.  The
    entries the source computes in binary64 are those of
    [Binary64.hadamard_gate] below. *)
Definition scale_entry (u : C) : C := Cdiv_real (Cscale u 1) (sqrt 2).
Definition hadamard_gate : Matrix2 :=
  ((scale_entry (lit 1 0), scale_entry (lit 1 0)),
   (scale_entry (lit 1 0), scale_entry (lit (-1) 0))).

(** The body the five gate methods share: read the qubit at [bit], multiply
    the matrix against its state, store the product back in that qubit. *)
Definition apply_matrix (gate : Matrix2) (bit : Z) (self : QuantumCircuit)
  : result unit * QuantumCircuit :=
  match py_index (length (_qubit_array self)) bit with
  | Raise e => (Raise e, self)
  | Ok i =>
      match _qubit_array self !! i with
      | None => (Raise IndexError, self)
      | Some qb =>
          let temp_arr := dot gate qb in
          (Ok tt, mkQuantumCircuit (_bit_str self) (<[i := temp_arr]> (_qubit_array self)))
      end
  end.

Definition identity (bit : Z) := apply_matrix identity_gate bit.
Definition x (bit : Z) := apply_matrix x_gate bit.
Definition y (bit : Z) := apply_matrix y_gate bit.
Definition z (bit : Z) := apply_matrix z_gate bit.
Definition hadamard (bit : Z) := apply_matrix hadamard_gate bit.

(** *** Strings of digits *)

(** The binary digits of a positive number, most significant first. *)
Fixpoint bin_pos (p : positive) : string :=
  match p with
  | xH => "1"
  | xO p' => bin_pos p' ++ "0"
  | xI p' => bin_pos p' ++ "1"
  end%string.

(** [format(i, 'b')]. *)
Definition format_b (i : Z) : string :=
  match i with
  | Z0 => "0"
  | Zpos p => bin_pos p
  | Zneg p => String "-" (bin_pos p)
  end.

Fixpoint zeros (k : nat) : string :=
  match k with
  | O => EmptyString
  | S k' => String "0" (zeros k')
  end.

(** [s.zfill(width)]: zeros on the left up to [width] characters, put after
    a leading sign when there is one. *)
Definition zfill (width : nat) (s : string) : string :=
  let pad := zeros (width - String.length s) in
  match s with
  | String c rest =>
      if (Ascii.eqb c "+" || Ascii.eqb c "-")%bool then String c (pad ++ rest)
      else (pad ++ s)%string
  | EmptyString => pad
  end.

(** [int(s)] on a string of decimal digits with an optional minus sign;
    [ValueError] otherwise. *)
Definition int (s : string) : result Z :=
  of_option ValueError (Z.of_int <$> NilZero.int_of_string s).

(** [str(n)] on an integer. *)
Definition str (n : Z) : string := NilZero.string_of_int (Z.to_int n).

(** [list(map(f, xs))] for an [f] that may raise. *)
Fixpoint map_result {A B} (f : A -> result B) (xs : list A) : result (list B) :=
  match xs with
  | [] => Ok []
  | a :: xs' => b ← f a; bs ← map_result f xs'; Ok (b :: bs)
  end.

(** *** probabilities *)

(** [numpy.kron] of two one-dimensional arrays: entry [i * len(b) + j] is
    [a[i] * b[j]]. *)
Definition kron (a b : list C) : list C :=
  flat_map (fun u => map (Cmul u) b) a.

(** The loop [while q: temp_arr = np.kron(temp_arr, q[0]); del q[0]]. *)
Fixpoint kron_rest (temp_arr : list C) (q : list (list C)) : list C :=
  match q with
  | [] => temp_arr
  | q0 :: q' => kron_rest (kron temp_arr q0) q'
  end.

(** The joint amplitude vector that [probabilities] builds from the queue
    [q] of the qubits' states before it squares the entries. *)
Definition joint (q : list (list C)) : result (list C) :=
  match q with
  | [] => Raise IndexError                       (* q[0] on an empty list *)
  | [q0] => Ok q0                                (* len(q) > 1 is false   *)
  | q0 :: q1 :: q' => Ok (kron_rest (kron q0 q1) q')
  end.

(** The weight of one joint amplitude: square, real part, absolute value. *)
Definition weight (u : C) : R := Rabs (re (square u)).

Definition probabilities (self : QuantumCircuit)
  : result (list R) * QuantumCircuit :=
  let q := map state (_qubit_array self) in
  match joint q with
  | Raise e => (Raise e, self)
  | Ok temp_arr =>
      let temp_arr := map square temp_arr in
      let probability_matrix := map (fun u => Rabs (re u)) temp_arr in
      (Ok probability_matrix, self)
  end.

(** *** measure *)

Definition sum_list (p : list R) : R := foldr Rplus 0%R p.

(** [numpy.random.choice(a, 1, p = p)[0]], by its contract: [ValueError]
    when [a] is empty, when [a] and [p] differ in size, when a weight is
    negative or when the weights do not sum to 1; otherwise an element of
    [a] whose weight is positive. *)
Inductive choice {A : Type} (a : list A) (p : list R) : result A -> Prop :=
| choice_empty : a = [] -> choice a p (Raise ValueError)
| choice_size : length a <> length p -> choice a p (Raise ValueError)
| choice_negative : Exists (fun w => (w < 0)%R) p -> choice a p (Raise ValueError)
| choice_sum : sum_list p <> 1%R -> choice a p (Raise ValueError)
| choice_draw i v w :
    length a = length p -> Forall (fun w => (0 <= w)%R) p -> sum_list p = 1%R ->
    a !! i = Some v -> p !! i = Some w -> (0 < w)%R ->
    choice a p (Ok v).

(** *** NumPy arrays of Python integers *)

(** [numpy.random.choice] turns the list it is given into an array.  The
    element type of an array made from Python integers is found value by
    value: an integer of the 64-bit signed range is an [int64], one above
    it and below [2^64] is a [uint64], any other is kept as a Python
    object; the types found are then promoted to one type, and [int64]
    with [uint64] promotes to [float64]. *)
Inductive dtype : Set := int64 | uint64 | float64 | object.

Definition discover_dtype (v : Z) : dtype :=
  if (- 2 ^ 63 <=? v)%Z && (v <? 2 ^ 63)%Z then int64
  else if (0 <=? v)%Z && (v <? 2 ^ 64)%Z then uint64
  else object.

Definition promote_types (d1 d2 : dtype) : dtype :=
  match d1, d2 with
  | object, _ | _, object => object
  | float64, _ | _, float64 => float64
  | int64, int64 => int64
  | uint64, uint64 => uint64
  | int64, uint64 | uint64, int64 => float64
  end.

Definition result_dtype (l : list Z) : dtype :=
  match map discover_dtype l with
  | [] => float64
  | d :: ds => fold_left promote_types ds d
  end.

(** An element read back from the array: the integer itself, or the
    [float64] that holds the integer [v]. *)
Inductive element : Set :=
| IntElem (v : Z)
| FloatElem (v : Z).

Definition np_array (l : list Z) : list element :=
  match result_dtype l with
  | float64 => map FloatElem l
  | _ => map IntElem l
  end.

Definition has_char (c : ascii) (s : string) : Prop := In c (list_ascii_of_string s).

(** [str(e)] on an element.  An integer is written by [str].  A float that
    holds an integer up to [2^53] in magnitude is written as the integer
    followed by ".0"; of the text of a larger one the model keeps only that
    it has a decimal point or an exponent mark. *)
Inductive str_element : element -> string -> Prop :=
| str_int v : str_element (IntElem v) (str v)
| str_float_exact v :
    (Z.abs v <= 2 ^ 53)%Z -> str_element (FloatElem v) (str v ++ ".0")
| str_float_rounded v s :
    (2 ^ 53 < Z.abs v)%Z -> has_char "." s \/ has_char "e" s ->
    str_element (FloatElem v) s.

(** The list of the [2 ** num_bits] outcomes, each the zero-padded binary
    text of its index, read back by [int] as a decimal number. *)
Definition state_list (num_bits : nat) : result (list Z) :=
  let state_list :=
    map (fun i => zfill num_bits (format_b (Z.of_nat i))) (seq 0 (2 ^ num_bits)) in
  map_result int state_list.

(** The last two statements of [measure] on the drawn element. *)
Definition final_text (num_bits : nat) (final_state : result element)
  (out : result string) : Prop :=
  match final_state with
  | Raise e => out = Raise e
  | Ok fs => exists text, str_element fs text /\ out = Ok (zfill num_bits text)
  end.

(** [measure self out self']: a call of [measure] on [self] may end with the
    outcome [out] and leave the object as [self']. *)
Definition measure (self : QuantumCircuit) (out : result string)
  (self' : QuantumCircuit) : Prop :=
  match probabilities self with
  | (Raise e, self1) => out = Raise e /\ self' = self1
  | (Ok probability_matrix, self1) =>
      let num_bits := length (_qubit_array self1) in
      match state_list num_bits with
      | Raise e => out = Raise e /\ self' = self1
      | Ok states =>
          let weight_list := probability_matrix in
          exists final_state,
            choice (np_array states) weight_list final_state /\
            final_text num_bits final_state out /\
            self' = self1
      end
  end.

(** *** Runs of gates *)

Inductive gate_name : Set := GIdentity | GX | GY | GZ | GHadamard.

Definition gate_matrix (g : gate_name) : Matrix2 :=
  match g with
  | GIdentity => identity_gate
  | GX => x_gate
  | GY => y_gate
  | GZ => z_gate
  | GHadamard => hadamard_gate
  end.

Definition gate_call (g : gate_name) : Z -> QuantumCircuit -> result unit * QuantumCircuit :=
  match g with
  | GIdentity => identity
  | GX => x
  | GY => y
  | GZ => z
  | GHadamard => hadamard
  end.

(** The circuits a caller can reach: construction from a bit string, then
    any number of gate calls that return. *)
Inductive reachable : QuantumCircuit -> Prop :=
| reach_init bit_str self :
    __init__ bit_str = Ok self -> reachable self
| reach_gate g bit self self' :
    reachable self -> gate_call g bit self = (Ok tt, self') -> reachable self'.

(** ** The Hadamard gate in binary64 *)

(** The amplitudes of the source are NumPy [complex128] values, pairs of
    binary64 numbers.  This module has the arithmetic of [hadamard] as
    IEEE 754 rounds it (to nearest, ties to even), on the binary64 numbers
    of the Standard Library's [SpecFloat]. *)
Module Binary64.

Definition prec : Z := 53.
Definition emax : Z := 1024.

Definition of_Z (z : Z) : spec_float := binary_normalize prec emax z 0 false.
Definition add : spec_float -> spec_float -> spec_float := SFadd prec emax.
Definition sub : spec_float -> spec_float -> spec_float := SFsub prec emax.
Definition mul : spec_float -> spec_float -> spec_float := SFmul prec emax.
Definition div : spec_float -> spec_float -> spec_float := SFdiv prec emax.
Definition sqrt : spec_float -> spec_float := SFsqrt prec emax.

(** The real number a finite binary64 number is. *)
Definition to_R (x : spec_float) : R :=
  match x with
  | S754_finite s m e =>
      let z := IZR (if s then Zneg m else Zpos m) in
      if (0 <=? e)%Z then (z * IZR (2 ^ e))%R else (z / IZR (2 ^ (- e)))%R
  | _ => 0%R
  end.

Record C : Set := mkC { re : spec_float; im : spec_float }.

(** [a + bj] for integers [a] and [b]. *)
Definition lit (a b : Z) : C := mkC (of_Z a) (of_Z b).

Definition Cadd (u v : C) : C := mkC (add (re u) (re v)) (add (im u) (im v)).

Definition Cmul (u v : C) : C :=
  mkC (sub (mul (re u) (re v)) (mul (im u) (im v)))
      (add (mul (re u) (im v)) (mul (im u) (re v))).

(** The quotient of two [complex128] values as NumPy computes it: the
    divisor is scaled by its part of larger magnitude. *)
Definition Cdiv (u v : C) : C :=
  if SFleb (SFabs (im v)) (SFabs (re v)) then
    if SFeqb (SFabs (re v)) (of_Z 0) && SFeqb (SFabs (im v)) (of_Z 0) then
      mkC (div (re u) (SFabs (re v))) (div (im u) (SFabs (re v)))
    else
      let rat := div (im v) (re v) in
      let scl := div (of_Z 1) (add (re v) (mul (im v) rat)) in
      mkC (mul (add (re u) (mul (im u) rat)) scl)
          (mul (sub (im u) (mul (re u) rat)) scl)
  else
    let rat := div (re v) (im v) in
    let scl := div (of_Z 1) (add (im v) (mul (re v) rat)) in
    mkC (mul (add (mul (re u) rat) (im u)) scl)
        (mul (sub (mul (im u) rat) (re u)) scl).

(** [|u|^2] computed in binary64. *)
Definition norm2 (u : C) : spec_float := add (mul (re u) (re u)) (mul (im u) (im u)).

(** [|u|^2] of the two numbers that [u] holds, as a real number. *)
Definition norm2_R (u : C) : R :=
  (to_R (re u) * to_R (re u) + to_R (im u) * to_R (im u))%R.

Record Qubit : Set := mkQubit { a0 : C; a1 : C }.

(** Modelled from the spec: the state of a new qubit, [[1,0]] for the bit 0
    and [[0,1]] for the bit 1, as [complex128] values. *)
Definition Qubit_new (bit : Z) : result Qubit :=
  match bit with
  | 0%Z => Ok (mkQubit (lit 1 0) (lit 0 0))
  | 1%Z => Ok (mkQubit (lit 0 0) (lit 1 0))
  | _ => Raise QubitError
  end.

Record QuantumCircuit : Set := mkQuantumCircuit {
  _bit_str : string;
  _qubit_array : list Qubit
}.

Fixpoint init_loop (bits : list ascii) (arr : list Qubit) : result (list Qubit) :=
  match bits with
  | [] => Ok arr
  | bit :: rest =>
      b ← int_of_char bit;
      qb ← Qubit_new b;
      init_loop rest (arr ++ [qb])
  end.

Definition __init__ (bit_str : string) : result QuantumCircuit :=
  arr ← init_loop (list_ascii_of_string bit_str) [];
  Ok (mkQuantumCircuit bit_str arr).

(** [numpy.dot] of a 2x2 matrix and a 2-element vector. *)
Definition dot (g : (C * C) * (C * C)) (v : Qubit) : Qubit :=
  let '((g00, g01), (g10, g11)) := g in
  mkQubit (Cadd (Cmul g00 (a0 v)) (Cmul g01 (a1 v)))
          (Cadd (Cmul g10 (a0 v)) (Cmul g11 (a1 v))).

(** [np.array(m) * 1 / sqrt(2)]: every entry times the integer 1, then
    divided by the binary64 number [math.sqrt(2)]. *)
Definition scale_entry (u : C) : C :=
  Cdiv (Cmul u (lit 1 0)) (mkC (sqrt (of_Z 2)) (of_Z 0)).

Definition hadamard_gate : (C * C) * (C * C) :=
  ((scale_entry (lit 1 0), scale_entry (lit 1 0)),
   (scale_entry (lit 1 0), scale_entry (lit (-1) 0))).

Definition hadamard (bit : Z) (self : QuantumCircuit)
  : result unit * QuantumCircuit :=
  match py_index (length (_qubit_array self)) bit with
  | Raise e => (Raise e, self)
  | Ok i =>
      match _qubit_array self !! i with
      | None => (Raise IndexError, self)
      | Some qb =>
          let temp_arr := dot hadamard_gate qb in
          (Ok tt, mkQuantumCircuit (_bit_str self) (<[i := temp_arr]> (_qubit_array self)))
      end
  end.

(** The state [[1, 0]] of a qubit built from the bit 0. *)
Definition q_zero : Qubit := mkQubit (lit 1 0) (lit 0 0).

(** The binary64 numbers 0.7071067811865475 and 0.9999999999999998. *)
Definition inv_sqrt2 : spec_float := S754_finite false 6369051672525772 (-53).
Definition below_one : spec_float := S754_finite false 9007199254740990 (-53).

End Binary64.

(** A caller's run of gate calls, made in order on the register; a call
    that raises leaves the register to the next call as it found it. *)
Fixpoint gate_run (calls : list (gate_name * Z)) (self : QuantumCircuit)
  : QuantumCircuit :=
  match calls with
  | [] => self
  | (g, bit) :: rest => gate_run rest (gate_call g bit self).2
  end.

(** ** The vocabulary of the statements *)

(** The sum of the squared magnitudes of a qubit's two amplitudes. *)
Definition qubit_norm2 (s : Qubit) : R := (norm2 (a0 s) + norm2 (a1 s))%R.

(** The two basis states, and the registers of a few inputs. *)
Definition q_zero : Qubit := mkQubit C1 C0.
Definition q_one : Qubit := mkQubit C0 C1.
Definition reg_0 : QuantumCircuit := mkQuantumCircuit "0" [q_zero].
Definition reg_01 : QuantumCircuit := mkQuantumCircuit "01" [q_zero; q_one].
Definition reg_empty : QuantumCircuit := mkQuantumCircuit "" [].

(** The amplitude of a qubit for the classical value [b] of its bit. *)
Definition amp (qb : Qubit) (b : bool) : C := if b then a1 qb else a0 qb.

(** The number a list of bits writes in binary, the first bit leading. *)
Definition bits_step (k : nat) (b : bool) : nat := 2 * k + (if b then 1 else 0).
Definition index_of_bits (bs : list bool) : nat := fold_left bits_step bs 0.

(** The character and the basis state of a bit. *)
Definition bit_char (b : bool) : ascii := if b then "1"%char else "0"%char.
Definition bit_qubit (b : bool) : Qubit := if b then q_one else q_zero.

(** Both amplitudes real, or both purely imaginary. *)
Definition same_phase (qb : Qubit) : Prop :=
  (is_real (a0 qb) /\ is_real (a1 qb)) \/ (is_imag (a0 qb) /\ is_imag (a1 qb)).

Definition real_or_imag (u : C) : Prop := is_real u \/ is_imag u.

(** The register of "0" after a call of [y] at index 0. *)
Definition reg_0_y : QuantumCircuit := mkQuantumCircuit "0" [dot y_gate q_zero].

Definition unit_norm (qb : Qubit) : Prop := qubit_norm2 qb = 1%R.

(** The string that writes a list of bits, the first bit first. *)
Fixpoint bit_string (bs : list bool) : string :=
  match bs with
  | [] => EmptyString
  | b :: bs' => String (bit_char b) (bit_string bs')
  end.

(** The bits of a positive number, most significant first. *)
Fixpoint pos_bits (p : positive) : list bool :=
  match p with
  | xH => [true]
  | xO p' => pos_bits p' ++ [false]
  | xI p' => pos_bits p' ++ [true]
  end.

(** The bits that [format(i, 'b')] writes for a natural number. *)
Definition nat_bits (i : nat) : list bool :=
  match Z.of_nat i with
  | Zpos p => pos_bits p
  | _ => [false]
  end.

(** The decimal number whose digits are the bits. *)
Fixpoint uint_bits (bs : list bool) : Decimal.uint :=
  match bs with
  | [] => Decimal.Nil
  | true :: bs' => Decimal.D1 (uint_bits bs')
  | false :: bs' => Decimal.D0 (uint_bits bs')
  end.

(** The number that [int] reads from the binary digits [bs]. *)
Definition decimal_of_bits (bs : list bool) : Z :=
  Z.of_int (Decimal.Pos (uint_bits bs)).

(** The element types of fixed width that an integer can be found to have. *)
Definition fixed_width (d : dtype) : Prop := d = int64 \/ d = uint64.

(** The element that the array of outcomes of [n] qubits holds for the
    number [v]. *)
Definition outcome_element (n : nat) (v : Z) : element :=
  if Nat.eqb n 20 then FloatElem v else IntElem v.

Definition binary_digit (c : ascii) : Prop := c = "0"%char \/ c = "1"%char.

(** The input of a register of 20 qubits. *)
Definition twenty_zeros : string := "00000000000000000000".

(** The number that the characters of a string write in binary, the first
    character leading; a character other than '1' counts as 0. *)
Definition binary_value (s : string) : nat :=
  index_of_bits (map (fun c => Ascii.eqb c "1") (list_ascii_of_string s)).

(** The bits [bs] with the bit at [i] inverted. *)
Definition flip_bit (i : nat) (bs : list bool) : list bool := alter negb i bs.

(** The opposite of a complex number, and two numbers equal up to sign. *)
Definition Cneg (u : C) : C := mkC (- re u) (- im u).
Definition same_up_to_sign (u v : C) : Prop := v = u \/ v = Cneg u.

(** The product, over the qubits, of the squared magnitude of the amplitude
    that each qubit has for its bit in [bs]. *)
Definition outcome_probability (qs : list Qubit) (bs : list bool) : R :=
  foldr Rmult 1%R (zip_with (fun qb b => norm2 (amp qb b)) qs bs).

(** * Properties *)

(** ** Arithmetic of the amplitudes *)

Section Amplitudes.
Local Open Scope R_scope.

Lemma C_eq (u v : C) : re u = re v -> im u = im v -> u = v.
Proof. destruct u, v; simpl; intros -> ->; reflexivity. Qed.

Lemma sqrt2_sqr : sqrt 2 * sqrt 2 = 2.
Proof. apply sqrt_sqrt; lra. Qed.

Lemma sqrt2_pos : 0 < sqrt 2.
Proof. apply sqrt_lt_R0; lra. Qed.

Lemma inv_sqrt2_sqr : / sqrt 2 * / sqrt 2 = / 2.
Proof.
  rewrite <- Rinv_mult, sqrt2_sqr; reflexivity.
Qed.

Lemma norm2_Cmul (u v : C) : norm2 (Cmul u v) = norm2 u * norm2 v.
Proof. unfold norm2, Cmul; simpl; ring. Qed.

Lemma norm2_nonneg (u : C) : 0 <= norm2 u.
Proof. unfold norm2; nra. Qed.

Lemma weight_unfold (u : C) : weight u = Rabs (re u * re u - im u * im u).
Proof. reflexivity. Qed.

Lemma weight_nonneg (u : C) : 0 <= weight u.
Proof. apply Rabs_pos. Qed.

(** On an amplitude that is real or purely imaginary the weight of the
    source is the squared magnitude. *)
Lemma weight_norm2 (u : C) : is_real u \/ is_imag u -> weight u = norm2 u.
Proof.
  unfold is_real, is_imag, norm2; rewrite weight_unfold.
  intros [-> | ->].
  - rewrite Rabs_pos_eq; nra.
  - rewrite Rabs_left1; nra.
Qed.

(** The entries of the Hadamard matrix. *)
Lemma scale_entry_re (u : C) : re (scale_entry u) = re u * / sqrt 2.
Proof. unfold scale_entry; simpl; unfold Rdiv; ring. Qed.

Lemma scale_entry_im (u : C) : im (scale_entry u) = im u * / sqrt 2.
Proof. unfold scale_entry; simpl; unfold Rdiv; ring. Qed.

(** The product of the Hadamard matrix and a vector, entry by entry. *)
Lemma dot_hadamard (s : Qubit) :
  dot hadamard_gate s =
  mkQubit (mkC ((re (a0 s) + re (a1 s)) * / sqrt 2) ((im (a0 s) + im (a1 s)) * / sqrt 2))
          (mkC ((re (a0 s) - re (a1 s)) * / sqrt 2) ((im (a0 s) - im (a1 s)) * / sqrt 2)).
Proof.
  unfold dot, hadamard_gate.
  f_equal; apply C_eq; simpl; unfold Rdiv; ring.
Qed.

Lemma dot_hadamard_twice (s : Qubit) : dot hadamard_gate (dot hadamard_gate s) = s.
Proof.
  rewrite !dot_hadamard; simpl.
  pose proof inv_sqrt2_sqr as E.
  destruct s as [[r0 i0] [r1 i1]]; simpl.
  f_equal; apply C_eq; simpl.
  - transitivity ((r0 + r0) * (/ sqrt 2 * / sqrt 2)); [ring | rewrite E; lra].
  - transitivity ((i0 + i0) * (/ sqrt 2 * / sqrt 2)); [ring | rewrite E; lra].
  - transitivity ((r1 + r1) * (/ sqrt 2 * / sqrt 2)); [ring | rewrite E; lra].
  - transitivity ((i1 + i1) * (/ sqrt 2 * / sqrt 2)); [ring | rewrite E; lra].
Qed.

Lemma dot_norm2 (g : gate_name) (s : Qubit) :
  qubit_norm2 (dot (gate_matrix g) s) = qubit_norm2 s.
Proof.
  destruct g; simpl gate_matrix.
  1-4: unfold qubit_norm2, norm2, dot; simpl; ring.
  rewrite dot_hadamard; unfold qubit_norm2, norm2; simpl.
  pose proof inv_sqrt2_sqr as E.
  destruct s as [[r0 i0] [r1 i1]]; simpl.
  transitivity (2 * (r0 * r0 + i0 * i0 + r1 * r1 + i1 * i1) * (/ sqrt 2 * / sqrt 2));
    [ring | rewrite E; lra].
Qed.

End Amplitudes.

(** ** Gate calls *)

Lemma py_index_valid (n : nat) (bit : Z) :
  (0 <= bit < Z.of_nat n)%Z -> py_index n bit = Ok (Z.to_nat bit).
Proof.
  intros [H0 Hn]. unfold py_index.
  destruct (Z.leb_spec 0 bit); [|lia].
  destruct (Z.ltb_spec bit (Z.of_nat n)); [reflexivity|lia].
Qed.

Lemma py_index_bound (n : nat) (bit : Z) (i : nat) :
  py_index n bit = Ok i -> (i < n)%nat.
Proof.
  unfold py_index.
  destruct (Z.leb_spec 0 bit), (Z.ltb_spec bit (Z.of_nat n)); simpl;
    try (intros [= <-]; lia);
    destruct (Z.leb_spec (- Z.of_nat n) bit), (Z.ltb_spec bit 0); simpl;
    try discriminate; intros [= <-]; lia.
Qed.

Lemma gate_call_apply (g : gate_name) (bit : Z) (self : QuantumCircuit) :
  gate_call g bit self = apply_matrix (gate_matrix g) bit self.
Proof. destruct g; reflexivity. Qed.

(** What a gate call that returns has done. *)
Lemma apply_matrix_ok (m : Matrix2) (bit : Z) (self self' : QuantumCircuit) :
  apply_matrix m bit self = (Ok tt, self') ->
  exists i qb,
    py_index (length (_qubit_array self)) bit = Ok i /\
    _qubit_array self !! i = Some qb /\
    self' = mkQuantumCircuit (_bit_str self) (<[i := dot m qb]> (_qubit_array self)).
Proof.
  unfold apply_matrix.
  destruct (py_index _ bit) as [i|e] eqn:Hi; [|discriminate].
  destruct (_qubit_array self !! i) as [qb|] eqn:Hq; [|discriminate].
  intros [= <-]. exists i, qb. auto.
Qed.

(** A gate call at an index of the register returns. *)
Lemma apply_matrix_valid (m : Matrix2) (bit : Z) (self : QuantumCircuit) :
  (0 <= bit < Z.of_nat (length (_qubit_array self)))%Z ->
  exists qb,
    _qubit_array self !! Z.to_nat bit = Some qb /\
    apply_matrix m bit self =
      (Ok tt, mkQuantumCircuit (_bit_str self)
                (<[Z.to_nat bit := dot m qb]> (_qubit_array self))).
Proof.
  intros H. unfold apply_matrix. rewrite py_index_valid by exact H.
  destruct (lookup_lt_is_Some_2 (_qubit_array self) (Z.to_nat bit)) as [qb Hq]; [lia|].
  exists qb. rewrite Hq. auto.
Qed.

(** ** Example registers *)

Lemma init_0 : __init__ "0" = Ok reg_0.
Proof. reflexivity. Qed.

Lemma init_01 : __init__ "01" = Ok reg_01.
Proof. reflexivity. Qed.

Lemma init_empty : __init__ "" = Ok reg_empty.
Proof. reflexivity. Qed.

(** ** C3: a gate call touches one qubit *)

(** C3.  A call of identity, x, y, z or hadamard at an index [bit] of the
    register returns, and afterwards the qubit at [bit] holds the gate
    matrix times its old state, every other qubit holds what it held, the
    register has the same number of qubits and the stored bit string is the
    same. *)
Theorem gate_call_frame (g : gate_name) (bit : Z) (self : QuantumCircuit) :
  (0 <= bit < Z.of_nat (length (_qubit_array self)))%Z ->
  exists qb self',
    _qubit_array self !! Z.to_nat bit = Some qb /\
    gate_call g bit self = (Ok tt, self') /\
    _qubit_array self' !! Z.to_nat bit = Some (dot (gate_matrix g) qb) /\
    (forall j : nat, j <> Z.to_nat bit ->
       _qubit_array self' !! j = _qubit_array self !! j) /\
    length (_qubit_array self') = length (_qubit_array self) /\
    _bit_str self' = _bit_str self.
Proof.
  intros Hbit.
  destruct (apply_matrix_valid (gate_matrix g) bit self Hbit) as (qb & Hq & Hcall).
  eexists qb, _. rewrite gate_call_apply.
  split; [exact Hq|]. split; [exact Hcall|]. simpl.
  split; [apply list_lookup_insert_eq; lia|].
  split; [intros j Hj; apply list_lookup_insert_ne; congruence|].
  split; [apply length_insert | reflexivity].
Qed.

Lemma gate_call_frame_witness :
  (0 <= 1 < Z.of_nat (length (_qubit_array reg_01)))%Z /\
  exists qb self',
    _qubit_array reg_01 !! Z.to_nat 1 = Some qb /\
    gate_call GY 1 reg_01 = (Ok tt, self') /\
    _qubit_array self' !! Z.to_nat 1 = Some (dot (gate_matrix GY) qb) /\
    (forall j : nat, j <> Z.to_nat 1 ->
       _qubit_array self' !! j = _qubit_array reg_01 !! j) /\
    length (_qubit_array self') = length (_qubit_array reg_01) /\
    _bit_str self' = _bit_str reg_01.
Proof.
  split; [simpl; lia | apply (gate_call_frame GY 1 reg_01); simpl; lia].
Defined.

(** ** C6: the gates keep a qubit normalized *)

(** C6, as it fails.  In binary64 the entries of the Hadamard matrix are
    0.7071067811865475 in magnitude.  The vector [[1, 0]] has
    [|s0|^2 + |s1|^2 = 1]; its product with the matrix is
    [[0.7071067811865475, 0.7071067811865475]], for which the sum is
    0.9999999999999998 when computed in binary64, and is not 1 as a sum of
    real numbers either. *)
Lemma hadamard_binary64_norm :
  Binary64.add (Binary64.norm2 (Binary64.a0 Binary64.q_zero))
    (Binary64.norm2 (Binary64.a1 Binary64.q_zero)) = Binary64.of_Z 1 /\
  (Binary64.norm2_R (Binary64.a0 Binary64.q_zero)
   + Binary64.norm2_R (Binary64.a1 Binary64.q_zero) = 1)%R /\
  Binary64.dot Binary64.hadamard_gate Binary64.q_zero
  = Binary64.mkQubit (Binary64.mkC Binary64.inv_sqrt2 (Binary64.of_Z 0))
                     (Binary64.mkC Binary64.inv_sqrt2 (Binary64.of_Z 0)) /\
  Binary64.add
    (Binary64.norm2 (Binary64.a0 (Binary64.dot Binary64.hadamard_gate Binary64.q_zero)))
    (Binary64.norm2 (Binary64.a1 (Binary64.dot Binary64.hadamard_gate Binary64.q_zero)))
  = Binary64.below_one /\
  Binary64.below_one <> Binary64.of_Z 1 /\
  (Binary64.norm2_R (Binary64.a0 (Binary64.dot Binary64.hadamard_gate Binary64.q_zero))
   + Binary64.norm2_R (Binary64.a1 (Binary64.dot Binary64.hadamard_gate Binary64.q_zero))
   <> 1)%R.
Proof.
  assert (Hdot : Binary64.dot Binary64.hadamard_gate Binary64.q_zero
                 = Binary64.mkQubit (Binary64.mkC Binary64.inv_sqrt2 (Binary64.of_Z 0))
                     (Binary64.mkC Binary64.inv_sqrt2 (Binary64.of_Z 0)))
    by (vm_compute; reflexivity).
  split; [vm_compute; reflexivity|].
  split.
  { assert (E1 : Binary64.of_Z 1 = S754_finite false 4503599627370496 (-52))
      by (vm_compute; reflexivity).
    assert (E0 : Binary64.of_Z 0 = S754_zero false) by (vm_compute; reflexivity).
    unfold Binary64.norm2_R, Binary64.q_zero, Binary64.lit.
    cbn [Binary64.a0 Binary64.a1 Binary64.re Binary64.im].
    rewrite E1, E0. unfold Binary64.to_R.
    change (0 <=? -52)%Z with false. cbv beta iota zeta.
    change (- -52)%Z with 52%Z.
    replace (IZR (2 ^ 52)) with (IZR 4503599627370496) by (f_equal; vm_compute; reflexivity).
    field. }
  split; [exact Hdot|].
  split; [vm_compute; reflexivity|].
  split; [vm_compute; discriminate|].
  assert (E0 : Binary64.of_Z 0 = S754_zero false) by (vm_compute; reflexivity).
  rewrite Hdot. unfold Binary64.norm2_R.
  cbn [Binary64.a0 Binary64.a1 Binary64.re Binary64.im]. rewrite E0.
  intros H. unfold Binary64.inv_sqrt2, Binary64.to_R in H.
  change (0 <=? -53)%Z with false in H. cbv beta iota zeta in H.
  change (- -53)%Z with 53%Z in H. unfold Rdiv in H.
  set (k := IZR (2 ^ 53)) in *. set (m := IZR 6369051672525772) in *.
  assert (K : (/ k * k = 1)%R).
  { apply Rinv_l. unfold k. apply not_0_IZR. vm_compute. discriminate. }
  assert (E : (2 * (m * m) = k * k)%R).
  { transitivity ((m * / k * (m * / k) + 0 * 0 + (m * / k * (m * / k) + 0 * 0)) * (k * k))%R.
    - transitivity (2 * (m * m) * ((/ k * k) * (/ k * k)))%R; [rewrite K; ring | ring].
    - rewrite H. ring. }
  subst m k. rewrite <- !mult_IZR in E. apply eq_IZR in E. vm_compute in E.
  discriminate E.
Qed.

(** C6, amended.  In exact arithmetic, for each of the five gates and every
    amplitude vector [s] with [|s0|^2 + |s1|^2 = 1], the product of the gate
    matrix and [s] has the same property. *)
Theorem gate_preserves_unit_norm (g : gate_name) (s : Qubit) :
  (norm2 (a0 s) + norm2 (a1 s) = 1)%R ->
  (norm2 (a0 (dot (gate_matrix g) s)) + norm2 (a1 (dot (gate_matrix g) s)) = 1)%R.
Proof.
  intros H. pose proof (dot_norm2 g s) as E. unfold qubit_norm2 in E.
  rewrite E. exact H.
Qed.

Lemma gate_preserves_unit_norm_witness :
  (norm2 (a0 q_zero) + norm2 (a1 q_zero) = 1)%R /\
  (norm2 (a0 (dot (gate_matrix GHadamard) q_zero))
   + norm2 (a1 (dot (gate_matrix GHadamard) q_zero)) = 1)%R.
Proof.
  assert (H : (norm2 (a0 q_zero) + norm2 (a1 q_zero) = 1)%R)
    by (unfold norm2; simpl; lra).
  split; [exact H | apply (gate_preserves_unit_norm GHadamard q_zero H)].
Defined.

(** ** C7: hadamard twice *)

(** C7, as it fails.  In binary64, on the register built from "0", whose
    qubit holds [[1, 0]], two calls of hadamard at index 0 both return and
    leave the qubit with [[0.9999999999999998, 0]], not with the vector it
    had. *)
Lemma hadamard_binary64_twice :
  exists self self1 self2 : Binary64.QuantumCircuit,
    Binary64.__init__ "0" = Ok self /\
    Binary64._qubit_array self = [Binary64.q_zero] /\
    Binary64.hadamard 0 self = (Ok tt, self1) /\
    Binary64.hadamard 0 self1 = (Ok tt, self2) /\
    Binary64._qubit_array self2
    = [Binary64.mkQubit (Binary64.mkC Binary64.below_one (Binary64.of_Z 0))
                        (Binary64.lit 0 0)] /\
    Binary64._qubit_array self2 <> Binary64._qubit_array self.
Proof.
  eexists _, _, _.
  split; [vm_compute; reflexivity|].
  split; [reflexivity|].
  split; [vm_compute; reflexivity|].
  split; [vm_compute; reflexivity|].
  split; [vm_compute; reflexivity|].
  vm_compute. discriminate.
Qed.

(** C7, amended.  In exact arithmetic, at an index [bit] of the register, a
    call of hadamard followed by a second call of hadamard at the same index
    both return, and the register after the second call is the register
    before the first: the state of the addressed qubit is back at its
    original value. *)
Theorem hadamard_twice (bit : Z) (self : QuantumCircuit) :
  (0 <= bit < Z.of_nat (length (_qubit_array self)))%Z ->
  exists self1,
    hadamard bit self = (Ok tt, self1) /\
    hadamard bit self1 = (Ok tt, self) /\
    forall qb, _qubit_array self !! Z.to_nat bit = Some qb ->
      _qubit_array self1 !! Z.to_nat bit = Some (dot hadamard_gate qb) /\
      dot hadamard_gate (dot hadamard_gate qb) = qb.
Proof.
  intros Hbit. unfold hadamard.
  destruct (apply_matrix_valid hadamard_gate bit self Hbit) as (qb & Hq & Hcall).
  eexists. split; [exact Hcall|].
  set (self1 := mkQuantumCircuit _ _) in *.
  assert (Hlen : length (_qubit_array self1) = length (_qubit_array self))
    by apply length_insert.
  assert (Hq1 : _qubit_array self1 !! Z.to_nat bit = Some (dot hadamard_gate qb))
    by (apply list_lookup_insert_eq; lia).
  split.
  - destruct (apply_matrix_valid hadamard_gate bit self1) as (qb1 & Hqb1 & Hcall1);
      [rewrite Hlen; exact Hbit|].
    rewrite Hcall1. f_equal.
    assert (E : qb1 = dot hadamard_gate qb) by congruence.
    rewrite E, dot_hadamard_twice. subst self1; simpl.
    rewrite list_insert_insert_eq, list_insert_id by exact Hq.
    destruct self; reflexivity.
  - intros qb' Hq'. rewrite Hq in Hq'. injection Hq' as <-.
    split; [exact Hq1 | apply dot_hadamard_twice].
Qed.

Lemma hadamard_twice_witness :
  (0 <= 0 < Z.of_nat (length (_qubit_array reg_01)))%Z /\
  exists self1,
    hadamard 0 reg_01 = (Ok tt, self1) /\
    hadamard 0 self1 = (Ok tt, reg_01) /\
    forall qb, _qubit_array reg_01 !! Z.to_nat 0 = Some qb ->
      _qubit_array self1 !! Z.to_nat 0 = Some (dot hadamard_gate qb) /\
      dot hadamard_gate (dot hadamard_gate qb) = qb.
Proof.
  split; [simpl; lia | apply (hadamard_twice 0 reg_01); simpl; lia].
Defined.

(** ** C8: the queries leave the register alone *)

Lemma probabilities_self (self : QuantumCircuit) : (probabilities self).2 = self.
Proof. unfold probabilities. destruct (joint _); reflexivity. Qed.

(** C8.  After a call of probabilities, and after a call of measure with
    whatever outcome, the register is the register before the call: the same
    amplitude vector in every qubit and the same stored bit string. *)
Theorem queries_keep_register (self : QuantumCircuit) :
  (probabilities self).2 = self /\
  forall out self', measure self out self' ->
    self' = self /\
    _qubit_array self' = _qubit_array self /\ _bit_str self' = _bit_str self.
Proof.
  split; [apply probabilities_self|].
  intros out self'. unfold measure.
  pose proof (probabilities_self self) as Hp.
  destruct (probabilities self) as [[w|e] self1]; simpl in Hp; subst self1.
  - destruct (state_list _) as [states|e].
    + intros (fs & _ & _ & ->). auto.
    + intros [_ ->]. auto.
  - intros [_ ->]. auto.
Qed.

(** ** The Kronecker product *)

Lemma length_kron (a b : list C) : length (kron a b) = length a * length b.
Proof.
  unfold kron. induction a as [|u a IH]; simpl; [reflexivity|].
  rewrite length_app, length_map, IH. reflexivity.
Qed.

(** Entry [i * len(b) + j] of [kron a b] is [a[i] * b[j]]. *)
Lemma kron_lookup (a b : list C) (i j : nat) (u v : C) :
  a !! i = Some u -> b !! j = Some v ->
  kron a b !! (i * length b + j) = Some (Cmul u v).
Proof.
  unfold kron. revert i. induction a as [|u' a IH]; intros i Hi Hj; [discriminate|].
  simpl. destruct i as [|i]; simpl in *.
  - injection Hi as ->. rewrite lookup_app_l.
    + rewrite list_lookup_fmap, Hj. reflexivity.
    + rewrite length_map. apply lookup_lt_Some in Hj. exact Hj.
  - rewrite lookup_app_r by (rewrite length_map; lia).
    rewrite length_map.
    replace (length b + i * length b + j - length b) with (i * length b + j) by lia.
    apply IH; assumption.
Qed.

Lemma joint_cons (q0 : list C) (q : list (list C)) :
  joint (q0 :: q) = Ok (kron_rest q0 q).
Proof. destruct q; reflexivity. Qed.

Lemma length_kron_rest (temp_arr : list C) (qs : list Qubit) :
  length (kron_rest temp_arr (map state qs)) = length temp_arr * 2 ^ length qs.
Proof.
  revert temp_arr. induction qs as [|qb qs IH]; intros temp_arr; simpl.
  - lia.
  - rewrite IH, length_kron. simpl. lia.
Qed.

Lemma state_lookup (qb : Qubit) (b : bool) :
  state qb !! (if b then 1 else 0) = Some (amp qb b).
Proof. destruct b; reflexivity. Qed.

Lemma kron_rest_lookup (qs : list Qubit) :
  forall (temp_arr : list C) (bs : list bool) (i : nat) (u : C),
    length bs = length qs -> temp_arr !! i = Some u ->
    kron_rest temp_arr (map state qs) !! fold_left bits_step bs i
    = Some (fold_left Cmul (zip_with amp qs bs) u).
Proof.
  induction qs as [|qb qs IH]; intros temp_arr bs i u Hlen Hi.
  - destruct bs; [exact Hi | discriminate].
  - destruct bs as [|b bs]; [discriminate|]. simpl in *.
    apply IH; [lia|]. unfold bits_step.
    replace (2 * i + (if b then 1 else 0))
      with (i * length (state qb) + (if b then 1 else 0)) by (simpl; lia).
    apply kron_lookup; [exact Hi | apply state_lookup].
Qed.

(** ** C1: the weights that probabilities returns *)

Lemma probabilities_cons (bit_str : string) (q0 : Qubit) (qs : list Qubit) :
  (probabilities (mkQuantumCircuit bit_str (q0 :: qs))).1
  = Ok (map weight (kron_rest (state q0) (map state qs))).
Proof.
  unfold probabilities. simpl _qubit_array.
  change (map state (q0 :: qs)) with (state q0 :: map state qs).
  rewrite joint_cons. simpl. rewrite map_map. reflexivity.
Qed.

Lemma weights_nonneg (l : list C) : Forall (fun p => (0 <= p)%R) (map weight l).
Proof.
  induction l as [|u l IH]; simpl; constructor; [apply weight_nonneg | exact IH].
Qed.

(** The weight of the source is not the squared magnitude on every complex
    number: at [1 + 1j] the first is 0 and the second is 2. *)
Lemma weight_not_norm2 : weight (lit 1 1) = 0%R /\ norm2 (lit 1 1) = 2%R.
Proof.
  split.
  - rewrite weight_unfold; simpl.
    replace (1 * 1 - 1 * 1)%R with 0%R by ring. apply Rabs_R0.
  - unfold norm2; simpl; ring.
Qed.

(** C1, as it fails: on the register built from the empty string, which
    [__init__] accepts, probabilities raises [IndexError] at [q[0]] and
    returns no vector. *)
Lemma probabilities_empty_register :
  __init__ "" = Ok reg_empty /\
  (probabilities reg_empty).1 = Raise IndexError /\
  ~ exists w : list R, (probabilities reg_empty).1 = Ok w.
Proof.
  split; [reflexivity|]. split; [reflexivity|].
  intros [w Hw]. discriminate Hw.
Qed.

(** C1, amended.  On every register with at least one qubit probabilities
    returns a vector of [2^n] nonnegative reals, [n] the number of qubits,
    and entry [k] of it is [|Re(c^2)|] for the entry [c] at [k] of the joint
    amplitude vector. *)
Theorem probabilities_weights (self : QuantumCircuit) :
  _qubit_array self <> [] ->
  exists (amplitudes : list C) (w : list R),
    joint (map state (_qubit_array self)) = Ok amplitudes /\
    (probabilities self).1 = Ok w /\
    length w = 2 ^ length (_qubit_array self) /\
    Forall (fun p => (0 <= p)%R) w /\
    length amplitudes = length w /\
    forall (k : nat) (c : C), amplitudes !! k = Some c ->
      w !! k = Some (Rabs (re (Cmul c c))).
Proof.
  destruct self as [bit_str [|q0 qs]]; [simpl; congruence|]. intros _.
  exists (kron_rest (state q0) (map state qs)), (map weight (kron_rest (state q0) (map state qs))).
  simpl _qubit_array.
  split; [apply joint_cons|]. split; [apply probabilities_cons|].
  split; [rewrite length_map, length_kron_rest; simpl; lia|].
  split; [apply weights_nonneg|].
  split; [rewrite length_map; reflexivity|].
  intros k c Hk. rewrite list_lookup_fmap, Hk. reflexivity.
Qed.

Lemma probabilities_weights_witness :
  _qubit_array reg_01 <> [] /\
  exists (amplitudes : list C) (w : list R),
    joint (map state (_qubit_array reg_01)) = Ok amplitudes /\
    (probabilities reg_01).1 = Ok w /\
    length w = 2 ^ length (_qubit_array reg_01) /\
    Forall (fun p => (0 <= p)%R) w /\
    length amplitudes = length w /\
    forall (k : nat) (c : C), amplitudes !! k = Some c ->
      w !! k = Some (Rabs (re (Cmul c c))).
Proof.
  assert (H : _qubit_array reg_01 <> []) by (simpl; discriminate).
  split; [exact H | apply (probabilities_weights reg_01 H)].
Defined.

(** ** C2: the order of the Kronecker product *)

Ltac weight_is v :=
  rewrite weight_unfold; simpl;
  match goal with
  | |- Rabs ?e = _ => replace e with v by ring
  end;
  first [apply Rabs_R0 | apply Rabs_R1].

Lemma probabilities_reg_01 :
  (probabilities reg_01).1 = Ok [0; 1; 0; 0]%R.
Proof.
  unfold reg_01. rewrite probabilities_cons. f_equal. simpl.
  repeat f_equal; [weight_is 0%R | weight_is 1%R | weight_is 0%R | weight_is 0%R].
Qed.

(** C2.  On a register with the qubits [q0 :: qs], probabilities squares the
    entries of [(...((q0 (x) q1) (x) q2) ...)], the Kronecker product taken
    in the order of the qubits, which for a single qubit is the qubit's own
    vector.  Entry [k] of that product, for [k] written in binary by the
    bits [b0 :: bs] with [b0] leading, is the product of the amplitudes of
    the qubits at their bits: qubit 0 is the most significant.  The
    register built from "01" gives [0, 1, 0, 0]. *)
Theorem probabilities_kron_order (bit_str : string) (q0 : Qubit) (qs : list Qubit) :
  let self := mkQuantumCircuit bit_str (q0 :: qs) in
  let amplitudes := fold_left kron (map state qs) (state q0) in
  joint (map state (_qubit_array self)) = Ok amplitudes /\
  (probabilities self).1 = Ok (map weight amplitudes) /\
  fold_left kron (map state []) (state q0) = state q0 /\
  (forall (b0 : bool) (bs : list bool), length bs = length qs ->
     amplitudes !! index_of_bits (b0 :: bs)
     = Some (fold_left Cmul (zip_with amp qs bs) (amp q0 b0))) /\
  (self' ← __init__ "01"; (probabilities self').1) = Ok [0; 1; 0; 0]%R.
Proof.
  assert (Hfold : forall q t, kron_rest t q = fold_left kron q t)
    by (induction q as [|q1 q IH]; intros t; simpl; [reflexivity | apply IH]).
  cbv zeta. simpl _qubit_array. rewrite <- !Hfold.
  split; [apply (joint_cons (state q0) (map state qs))|].
  split; [apply probabilities_cons|].
  split; [reflexivity|]. split.
  - intros b0 bs Hlen. unfold index_of_bits. simpl fold_left at 1.
    apply kron_rest_lookup; [exact Hlen|].
    destruct b0; reflexivity.
  - rewrite init_01. apply probabilities_reg_01.
Qed.

(** ** What construction and the gates keep true of every qubit *)

Lemma qubit_of_char (ch : ascii) (b : Z) (qb : Qubit) :
  int_of_char ch = Ok b -> Qubit_new b = Ok qb ->
  exists bit : bool, ch = bit_char bit /\ qb = bit_qubit bit.
Proof.
  intros Hb Hq.
  destruct ch as [[] [] [] [] [] [] [] []]; vm_compute in Hb;
    try discriminate Hb; injection Hb as <-; simpl in Hq;
    try discriminate Hq; injection Hq as <-.
  - exists true; split; reflexivity.
  - exists false; split; reflexivity.
Qed.

Lemma init_loop_ok (bits : list ascii) :
  forall arr arr' : list Qubit,
    init_loop bits arr = Ok arr' ->
    exists bs : list bool, bits = map bit_char bs /\ arr' = arr ++ map bit_qubit bs.
Proof.
  induction bits as [|ch bits IH]; intros arr arr' H; simpl in H.
  - injection H as <-. exists []. rewrite app_nil_r. auto.
  - destruct (int_of_char ch) as [b|e] eqn:Hb; cbn in H; [|discriminate H].
    destruct (Qubit_new b) as [qb|e] eqn:Hq; cbn in H; [|discriminate H].
    destruct (qubit_of_char ch b qb Hb Hq) as (bit & -> & ->).
    destruct (IH _ _ H) as (bs & -> & ->).
    exists (bit :: bs). rewrite <- app_assoc. auto.
Qed.

Lemma init_loop_bits (bs : list bool) (arr : list Qubit) :
  init_loop (map bit_char bs) arr = Ok (arr ++ map bit_qubit bs).
Proof.
  revert arr. induction bs as [|b bs IH]; intros arr; simpl.
  - rewrite app_nil_r. reflexivity.
  - destruct b; simpl; rewrite IH, <- app_assoc; reflexivity.
Qed.

(** A register that [__init__] returns holds the input string and, for each
    of its characters, the basis state of that bit. *)
Lemma init_ok (bit_str : string) (self : QuantumCircuit) :
  __init__ bit_str = Ok self ->
  exists bs : list bool,
    list_ascii_of_string bit_str = map bit_char bs /\
    self = mkQuantumCircuit bit_str (map bit_qubit bs).
Proof.
  unfold __init__. intros H.
  destruct (init_loop _ []) as [arr|e] eqn:Hl; [|discriminate H].
  injection H as <-.
  destruct (init_loop_ok _ _ _ Hl) as (bs & Hbits & ->). eauto.
Qed.

Section Invariant.
Variable P : Qubit -> Prop.
Hypothesis P_zero : P q_zero.
Hypothesis P_one : P q_one.
Hypothesis P_dot : forall g qb, P qb -> P (dot (gate_matrix g) qb).

Lemma reachable_Forall (self : QuantumCircuit) :
  reachable self -> Forall P (_qubit_array self).
Proof.
  induction 1 as [bit_str self Hinit | g bit self self' _ IH Hcall].
  - destruct (init_ok _ _ Hinit) as (bs & _ & ->). simpl.
    clear Hinit. induction bs as [|[] bs IHbs]; simpl; constructor; assumption.
  - rewrite gate_call_apply in Hcall.
    destruct (apply_matrix_ok _ _ _ _ Hcall) as (i & qb & _ & Hq & ->). simpl.
    apply Forall_insert; [exact IH|].
    apply P_dot. exact (Forall_lookup_1 _ _ _ _ IH Hq).
Qed.

End Invariant.

Lemma same_phase_dot (g : gate_name) (qb : Qubit) :
  same_phase qb -> same_phase (dot (gate_matrix g) qb).
Proof.
  unfold same_phase, is_real, is_imag.
  destruct g; simpl gate_matrix; [| | | |rewrite dot_hadamard];
    simpl; intros [[H0 H1] | [H0 H1]]; rewrite H0, H1;
    solve [left; split; ring | right; split; ring].
Qed.

Lemma real_or_imag_Cmul (u v : C) :
  real_or_imag u -> real_or_imag v -> real_or_imag (Cmul u v).
Proof.
  unfold real_or_imag, is_real, is_imag; simpl.
  intros [Hu | Hu] [Hv | Hv]; rewrite Hu, Hv;
    solve [left; ring | right; ring].
Qed.

Lemma same_phase_state (qb : Qubit) :
  same_phase qb -> Forall real_or_imag (state qb).
Proof.
  unfold state, real_or_imag.
  intros [[H0 H1] | [H0 H1]];
    (apply List.Forall_cons; [|apply List.Forall_cons; [|apply List.Forall_nil]]);
    [left | left | right | right]; assumption.
Qed.

Section Kron_Forall.
Variable P : C -> Prop.
Hypothesis P_mul : forall u v, P u -> P v -> P (Cmul u v).

Lemma kron_Forall (a b : list C) :
  Forall P a -> Forall P b -> Forall P (kron a b).
Proof.
  intros Ha Hb. unfold kron.
  induction Ha as [|u a Hu Ha IH]; simpl; [constructor|].
  apply Forall_app. split; [|exact IH].
  clear IH Ha. induction Hb; simpl; constructor; auto.
Qed.

Lemma kron_rest_Forall (q : list (list C)) :
  forall temp_arr, Forall P temp_arr -> Forall (Forall P) q ->
    Forall P (kron_rest temp_arr q).
Proof.
  induction q as [|q0 q IH]; intros temp_arr Ht Hq; simpl; [exact Ht|].
  inversion Hq; subst. apply IH; [apply kron_Forall|]; assumption.
Qed.

End Kron_Forall.

Lemma reachable_same_phase (self : QuantumCircuit) :
  reachable self -> Forall same_phase (_qubit_array self).
Proof.
  apply reachable_Forall.
  - left; split; reflexivity.
  - left; split; reflexivity.
  - apply same_phase_dot.
Qed.

Lemma joint_real_or_imag (qs : list Qubit) (amplitudes : list C) :
  Forall same_phase qs -> joint (map state qs) = Ok amplitudes ->
  Forall real_or_imag amplitudes.
Proof.
  intros Hqs Hj. destruct qs as [|q0 qs]; [discriminate Hj|].
  change (map state (q0 :: qs)) with (state q0 :: map state qs) in Hj.
  rewrite joint_cons in Hj. injection Hj as <-.
  inversion Hqs; subst.
  apply kron_rest_Forall.
  - apply real_or_imag_Cmul.
  - apply same_phase_state; assumption.
  - apply Forall_fmap. eapply Forall_impl; [eassumption|].
    intros qb Hqb. apply same_phase_state, Hqb.
Qed.

Lemma map_weight_norm2 (amplitudes : list C) :
  Forall real_or_imag amplitudes -> map weight amplitudes = map norm2 amplitudes.
Proof.
  induction 1 as [|c l Hc _ IH]; simpl; [reflexivity|].
  rewrite IH, (weight_norm2 c Hc). reflexivity.
Qed.

Lemma probabilities_joint (self : QuantumCircuit) (amplitudes : list C) :
  joint (map state (_qubit_array self)) = Ok amplitudes ->
  (probabilities self).1 = Ok (map weight amplitudes).
Proof.
  intros Hj. unfold probabilities. rewrite Hj. simpl. rewrite map_map. reflexivity.
Qed.

(** ** C9: on reachable registers the weight is the squared magnitude *)

(** C9.  In a register reached from construction by calls of the five
    gates, every qubit has both amplitudes real or both purely imaginary;
    every entry [c] of the joint amplitude vector then has [|Re(c^2)|] equal
    to [|c|^2], so probabilities returns the squared magnitudes. *)
Theorem reachable_weights_born (self : QuantumCircuit) :
  reachable self ->
  Forall same_phase (_qubit_array self) /\
  forall amplitudes : list C,
    joint (map state (_qubit_array self)) = Ok amplitudes ->
    Forall (fun c => weight c = norm2 c) amplitudes /\
    (probabilities self).1 = Ok (map norm2 amplitudes).
Proof.
  intros Hr. pose proof (reachable_same_phase self Hr) as Hph.
  split; [exact Hph|]. intros amplitudes Hj.
  pose proof (joint_real_or_imag _ _ Hph Hj) as Hri.
  split.
  - eapply Forall_impl; [exact Hri | intros c Hc; apply weight_norm2, Hc].
  - rewrite (probabilities_joint self amplitudes Hj), (map_weight_norm2 _ Hri).
    reflexivity.
Qed.

Lemma reachable_reg_0_y : reachable reg_0_y.
Proof.
  apply (reach_gate GY 0 reg_0 reg_0_y); [|reflexivity].
  apply (reach_init "0"). reflexivity.
Defined.

Lemma reachable_weights_born_witness :
  reachable reg_0_y /\
  Forall same_phase (_qubit_array reg_0_y) /\
  forall amplitudes : list C,
    joint (map state (_qubit_array reg_0_y)) = Ok amplitudes ->
    Forall (fun c => weight c = norm2 c) amplitudes /\
    (probabilities reg_0_y).1 = Ok (map norm2 amplitudes).
Proof.
  split; [exact reachable_reg_0_y
         | apply (reachable_weights_born reg_0_y reachable_reg_0_y)].
Defined.

(** ** The weights of a reachable register sum to 1 *)

Section Sums.
Local Open Scope R_scope.

Lemma sum_list_app (p1 p2 : list R) :
  sum_list (p1 ++ p2) = sum_list p1 + sum_list p2.
Proof.
  unfold sum_list. induction p1 as [|a p1 IH]; simpl; [ring | rewrite IH; ring].
Qed.

Lemma sum_norm2_scale (u : C) (b : list C) :
  sum_list (map norm2 (map (Cmul u) b)) = norm2 u * sum_list (map norm2 b).
Proof.
  unfold sum_list. induction b as [|v b IH]; simpl; [ring|].
  rewrite IH, norm2_Cmul. ring.
Qed.

Lemma sum_norm2_kron (a b : list C) :
  sum_list (map norm2 (kron a b))
  = sum_list (map norm2 a) * sum_list (map norm2 b).
Proof.
  unfold kron. induction a as [|u a IH]; simpl.
  - unfold sum_list; simpl; ring.
  - rewrite map_app, sum_list_app, IH, sum_norm2_scale.
    unfold sum_list; simpl; ring.
Qed.

Lemma sum_norm2_state (qb : Qubit) : sum_list (map norm2 (state qb)) = qubit_norm2 qb.
Proof. unfold sum_list, qubit_norm2; simpl; ring. Qed.

Lemma sum_norm2_kron_rest (qs : list Qubit) :
  Forall unit_norm qs ->
  forall temp_arr,
    sum_list (map norm2 (kron_rest temp_arr (map state qs)))
    = sum_list (map norm2 temp_arr).
Proof.
  induction 1 as [|qb qs Hqb _ IH]; intros temp_arr; simpl; [reflexivity|].
  rewrite IH, sum_norm2_kron, sum_norm2_state, Hqb. ring.
Qed.

Lemma reachable_unit_norm (self : QuantumCircuit) :
  reachable self -> Forall unit_norm (_qubit_array self).
Proof.
  apply reachable_Forall; unfold unit_norm.
  - unfold qubit_norm2, norm2; simpl; ring.
  - unfold qubit_norm2, norm2; simpl; ring.
  - intros g qb H. rewrite dot_norm2. exact H.
Qed.

(** In a nonnegative list that sums to 1 some entry is positive. *)
Lemma sum_one_positive (p : list R) :
  Forall (fun w => 0 <= w) p -> sum_list p = 1 ->
  exists i w, p !! i = Some w /\ 0 < w.
Proof.
  unfold sum_list. induction 1 as [|a p Ha _ IH]; simpl; intros Hs; [lra|].
  destruct (Rle_lt_dec a 0) as [Hle | Hlt].
  - destruct IH as (i & w & Hi & Hw); [lra|]. exists (S i), w. auto.
  - exists 0%nat, a. auto.
Qed.

End Sums.

(** What probabilities returns on a reachable register with a qubit. *)
Lemma reachable_probabilities (self : QuantumCircuit) :
  reachable self -> _qubit_array self <> [] ->
  exists w : list R,
    (probabilities self).1 = Ok w /\
    length w = 2 ^ length (_qubit_array self) /\
    Forall (fun p => (0 <= p)%R) w /\
    sum_list w = 1%R.
Proof.
  intros Hr Hne.
  pose proof (reachable_unit_norm self Hr) as Hu.
  pose proof (reachable_same_phase self Hr) as Hph.
  destruct self as [bit_str [|q0 qs]]; [simpl in Hne; congruence|].
  simpl _qubit_array in *.
  pose proof (joint_cons (state q0) (map state qs)) as Hj.
  exists (map weight (kron_rest (state q0) (map state qs))).
  split; [apply probabilities_cons|].
  split; [rewrite length_map, length_kron_rest; simpl; lia|].
  split; [apply weights_nonneg|].
  rewrite (map_weight_norm2 _ (joint_real_or_imag (q0 :: qs) _ Hph Hj)).
  inversion Hu; subst.
  rewrite sum_norm2_kron_rest by assumption.
  rewrite sum_norm2_state. assumption.
Qed.

(** ** Strings of binary digits *)

Lemma bit_string_app (l1 l2 : list bool) :
  bit_string (l1 ++ l2) = (bit_string l1 ++ bit_string l2)%string.
Proof. induction l1 as [|b l1 IH]; simpl; [reflexivity | rewrite IH; reflexivity]. Qed.

Lemma bit_string_length (bs : list bool) : String.length (bit_string bs) = length bs.
Proof. induction bs as [|b bs IH]; simpl; [reflexivity | rewrite IH; reflexivity]. Qed.

Lemma bit_string_chars (bs : list bool) :
  list_ascii_of_string (bit_string bs) = map bit_char bs.
Proof. induction bs as [|b bs IH]; simpl; [reflexivity | rewrite IH; reflexivity]. Qed.

Lemma bit_string_of_chars (s : string) (bs : list bool) :
  list_ascii_of_string s = map bit_char bs -> s = bit_string bs.
Proof.
  intros H. rewrite <- (string_of_list_ascii_of_string s), H.
  rewrite <- bit_string_chars. apply string_of_list_ascii_of_string.
Qed.

Lemma zeros_bit_string (k : nat) : zeros k = bit_string (replicate k false).
Proof. induction k as [|k IH]; simpl; [reflexivity | rewrite IH; reflexivity]. Qed.

(** [zfill] on a nonempty string of binary digits, which has no sign. *)
Lemma zfill_bit_string (width : nat) (bs : list bool) :
  bs <> [] ->
  zfill width (bit_string bs) = bit_string (replicate (width - length bs) false ++ bs).
Proof.
  intros Hne. destruct bs as [|b bs]; [congruence|].
  unfold zfill. rewrite bit_string_length, bit_string_app, <- zeros_bit_string.
  destruct b; reflexivity.
Qed.

Lemma bin_pos_bits (p : positive) : bin_pos p = bit_string (pos_bits p).
Proof.
  induction p as [p IH | p IH |]; simpl; [| |reflexivity];
    rewrite IH, bit_string_app; reflexivity.
Qed.

Lemma index_of_bits_snoc (bs : list bool) (b : bool) :
  index_of_bits (bs ++ [b]) = bits_step (index_of_bits bs) b.
Proof. unfold index_of_bits. rewrite fold_left_app. reflexivity. Qed.

Lemma index_of_pos_bits (p : positive) : index_of_bits (pos_bits p) = Pos.to_nat p.
Proof.
  induction p as [p IH | p IH |]; simpl pos_bits; [| |reflexivity];
    rewrite index_of_bits_snoc, IH; unfold bits_step; lia.
Qed.

Lemma pos_bits_length (p : positive) :
  forall n : nat, Pos.to_nat p < 2 ^ n -> length (pos_bits p) <= n.
Proof.
  induction p as [p IH | p IH |]; intros n Hn; simpl.
  - rewrite Pos2Nat.inj_xI in Hn.
    destruct n as [|n]; [simpl in Hn; lia|]. rewrite Nat.pow_succ_r' in Hn.
    rewrite length_app; simpl. specialize (IH n). lia.
  - rewrite Pos2Nat.inj_xO in Hn.
    destruct n as [|n]; [simpl in Hn; lia|]. rewrite Nat.pow_succ_r' in Hn.
    rewrite length_app; simpl. specialize (IH n). lia.
  - destruct n as [|n]; [simpl in Hn; lia | lia].
Qed.

Lemma pos_bits_nonempty (p : positive) : pos_bits p <> [].
Proof. destruct p; simpl; try discriminate; destruct (pos_bits p); discriminate. Qed.

Lemma index_of_bits_zeros (k : nat) (bs : list bool) :
  index_of_bits (replicate k false ++ bs) = index_of_bits bs.
Proof.
  unfold index_of_bits. rewrite fold_left_app.
  replace (fold_left bits_step (replicate k false) 0) with 0; [reflexivity|].
  induction k as [|k IH]; simpl; [reflexivity | exact IH].
Qed.

Lemma format_b_bits (i : nat) : format_b (Z.of_nat i) = bit_string (nat_bits i).
Proof.
  unfold format_b, nat_bits. destruct (Z.of_nat i) eqn:E; [reflexivity | apply bin_pos_bits | lia].
Qed.

Lemma nat_bits_index (i : nat) : index_of_bits (nat_bits i) = i.
Proof.
  unfold nat_bits. destruct (Z.of_nat i) eqn:E;
    [unfold index_of_bits, bits_step; simpl; lia | | lia].
  rewrite index_of_pos_bits. lia.
Qed.

Lemma nat_bits_length (i n : nat) : 1 <= n -> i < 2 ^ n -> length (nat_bits i) <= n.
Proof.
  intros Hn Hi. unfold nat_bits. destruct (Z.of_nat i) eqn:E; [simpl; lia | | lia].
  apply pos_bits_length. lia.
Qed.

Lemma nat_bits_nonempty (i : nat) : nat_bits i <> [].
Proof.
  unfold nat_bits. destruct (Z.of_nat i); [discriminate | apply pos_bits_nonempty | discriminate].
Qed.

(** Entry [i] of the list of outcomes before [int]: [n] binary digits that
    write [i]. *)
Lemma outcome_text (n i : nat) :
  1 <= n -> i < 2 ^ n ->
  exists bs : list bool,
    length bs = n /\ index_of_bits bs = i /\
    zfill n (format_b (Z.of_nat i)) = bit_string bs.
Proof.
  intros Hn Hi. pose proof (nat_bits_length i n Hn Hi) as Hl.
  exists (replicate (n - length (nat_bits i)) false ++ nat_bits i).
  split; [rewrite length_app, length_replicate; lia|].
  split; [rewrite index_of_bits_zeros; apply nat_bits_index|].
  rewrite format_b_bits. apply zfill_bit_string, nat_bits_nonempty.
Qed.

(** ** [int] and [str] on binary digits *)

Lemma string_of_uint_bits (bs : list bool) :
  NilEmpty.string_of_uint (uint_bits bs) = bit_string bs.
Proof.
  induction bs as [|[] bs IH]; simpl; [reflexivity | rewrite IH .. ]; reflexivity.
Qed.

Lemma int_bit_string_value (bs : list bool) :
  bs <> [] -> int (bit_string bs) = Ok (decimal_of_bits bs).
Proof.
  intros Hne. unfold decimal_of_bits. destruct bs as [|b bs]; [congruence|].
  pose proof (NilEmpty.usu (uint_bits (b :: bs))) as E.
  rewrite string_of_uint_bits in E.
  unfold int, NilZero.int_of_string. simpl bit_string in *.
  assert (Hm : (bit_char b =? "-")%char = false) by (destruct b; reflexivity).
  cbv beta iota. rewrite Hm. unfold NilZero.uint_of_string. rewrite E. reflexivity.
Qed.

(** The decimal text of the number read from binary digits is the digits
    without their leading zeros, and "0" when every digit is zero. *)
Lemma str_unorm_bits (bs : list bool) :
  bs <> [] ->
  exists (k : nat) (t : list bool),
    bs = replicate k false ++ t /\ t <> [] /\
    NilZero.string_of_uint (Decimal.unorm (uint_bits bs)) = bit_string t.
Proof.
  induction bs as [|b bs IH]; [congruence|]. intros _.
  destruct b.
  - exists 0, (true :: bs). split; [reflexivity|]. split; [discriminate|].
    simpl. rewrite string_of_uint_bits. reflexivity.
  - destruct bs as [|b' bs'].
    + exists 0, [false]. split; [reflexivity|]. split; [discriminate | reflexivity].
    + destruct IH as (k & t & E & Ht & Hs); [discriminate|].
      exists (S k), t. split; [simpl; rewrite <- E; reflexivity|].
      split; [exact Ht|]. rewrite <- Hs. reflexivity.
Qed.

(** Reading [n] binary digits with [int] and writing the number back with
    [str] and [zfill(n)] gives the digits again. *)
Lemma int_str_bit_string (bs : list bool) :
  bs <> [] ->
  int (bit_string bs) = Ok (decimal_of_bits bs) /\
  zfill (length bs) (str (decimal_of_bits bs)) = bit_string bs.
Proof.
  intros Hne. split; [apply int_bit_string_value, Hne|].
  unfold str, decimal_of_bits. rewrite DecimalZ.to_of. simpl Decimal.norm. simpl NilZero.string_of_int.
  destruct (str_unorm_bits bs Hne) as (k & t & E & Ht & ->).
  rewrite zfill_bit_string by exact Ht.
  rewrite E at 2. f_equal. f_equal. f_equal.
  rewrite E, length_app, length_replicate. lia.
Qed.

Lemma map_result_ok {A B} (f : A -> result B) (xs : list A) :
  (forall x, In x xs -> exists y, f x = Ok y) ->
  exists ys, map_result f xs = Ok ys /\ length ys = length xs /\
    forall i x y, xs !! i = Some x -> ys !! i = Some y -> f x = Ok y.
Proof.
  induction xs as [|a xs IH]; intros H.
  - exists []. split; [reflexivity|]. split; [reflexivity|]. intros i x y Hx. discriminate Hx.
  - destruct (H a) as (b & Hb); [left; reflexivity|].
    destruct IH as (bs & Hbs & Hlen & Hnth); [intros x Hx; apply H; right; exact Hx|].
    exists (b :: bs). simpl. rewrite Hb. cbn. rewrite Hbs. cbn.
    split; [reflexivity|]. split; [simpl; lia|].
    intros [|i] x y Hx Hy; simpl in *.
    + congruence.
    + eapply Hnth; eassumption.
Qed.

(** The list of outcomes of [measure]: there are [2^n] of them and entry
    [i], padded to [n] digits, writes [i] in binary. *)
Lemma state_list_ok (n : nat) :
  1 <= n ->
  exists states : list Z,
    state_list n = Ok states /\ length states = 2 ^ n /\
    forall i v, states !! i = Some v ->
      exists bs : list bool,
        length bs = n /\ index_of_bits bs = i /\
        v = decimal_of_bits bs /\ zfill n (str v) = bit_string bs.
Proof.
  intros Hn. unfold state_list.
  set (texts := map _ (seq 0 (2 ^ n))).
  assert (Htexts : forall i s, texts !! i = Some s ->
            exists bs, length bs = n /\ index_of_bits bs = i /\ s = bit_string bs).
  { intros i s Hs. subst texts.
    rewrite list_lookup_fmap in Hs.
    destruct (seq 0 (2 ^ n) !! i) as [j|] eqn:Hj; [|discriminate Hs].
    apply lookup_seq in Hj. destruct Hj as [-> Hi]. simpl in Hs. injection Hs as <-.
    destruct (outcome_text n i Hn Hi) as (bs & ? & ? & ?). eauto. }
  destruct (map_result_ok int texts) as (states & Hst & Hlen & Hnth).
  { intros s Hs. apply list_elem_of_In, list_elem_of_lookup in Hs. destruct Hs as (i & Hs).
    destruct (Htexts i s Hs) as (bs & Hl & _ & ->).
    destruct (int_str_bit_string bs) as (Hv & _); [destruct bs; simpl in *; [lia|discriminate]|].
    eauto. }
  exists states. split; [exact Hst|].
  split; [rewrite Hlen; subst texts; rewrite length_map, length_seq; reflexivity|].
  intros i v Hv.
  destruct (lookup_lt_is_Some_2 texts i) as (s & Hs);
    [rewrite <- Hlen; eapply lookup_lt_Some; exact Hv|].
  destruct (Htexts i s Hs) as (bs & Hl & Hidx & ->).
  exists bs. split; [exact Hl|]. split; [exact Hidx|].
  destruct (int_str_bit_string bs) as (Hv' & Hz); [destruct bs; simpl in *; [lia|discriminate]|].
  rewrite (Hnth i _ v Hs Hv) in Hv'. injection Hv' as ->.
  split; [reflexivity | rewrite <- Hl; exact Hz].
Qed.

(** ** The element type of the array of outcomes *)

Lemma fold_promote_object (ds : list dtype) : fold_left promote_types ds object = object.
Proof. induction ds as [|d ds IH]; simpl; [reflexivity | destruct d; exact IH]. Qed.

Lemma fold_promote_has_object (ds : list dtype) (d : dtype) :
  In object ds -> fold_left promote_types ds d = object.
Proof.
  revert d. induction ds as [|d' ds IH]; intros d Hin; [destruct Hin|].
  simpl. destruct Hin as [-> | Hin]; [|apply IH, Hin].
  destruct d; apply fold_promote_object.
Qed.

Lemma fold_promote_float64 (ds : list dtype) :
  Forall fixed_width ds -> fold_left promote_types ds float64 = float64.
Proof.
  induction 1 as [|d ds [-> | ->] _ IH]; simpl; [reflexivity | exact IH ..].
Qed.

Lemma fold_promote_int64 (ds : list dtype) :
  Forall (fun d => d = int64) ds -> fold_left promote_types ds int64 = int64.
Proof. induction 1 as [|d ds -> _ IH]; simpl; [reflexivity | exact IH]. Qed.

Lemma fold_promote_mixed (ds : list dtype) (d : dtype) :
  Forall fixed_width ds -> fixed_width d ->
  In int64 (d :: ds) -> In uint64 (d :: ds) ->
  fold_left promote_types ds d = float64.
Proof.
  intros Hds. revert d. induction Hds as [|d' ds Hd' Hds IH]; intros d Hd Hi Hu.
  - destruct Hi as [-> | []], Hu as [Hu | []]. discriminate Hu.
  - simpl. destruct Hd as [-> | ->], Hd' as [-> | ->]; simpl.
    + apply IH; [left; reflexivity | left; reflexivity |].
      destruct Hu as [Hu | [Hu | Hu]]; [discriminate Hu .. | right; exact Hu].
    + apply fold_promote_float64, Hds.
    + apply fold_promote_float64, Hds.
    + apply IH; [right; reflexivity | | left; reflexivity].
      destruct Hi as [Hi | [Hi | Hi]]; [discriminate Hi .. | right; exact Hi].
Qed.

Lemma result_dtype_int64 (l : list Z) :
  l <> [] -> Forall (fun v => discover_dtype v = int64) l -> result_dtype l = int64.
Proof.
  intros Hne Hl. unfold result_dtype.
  destruct Hl as [|v l Hv Hl]; [congruence|]. simpl. rewrite Hv.
  apply fold_promote_int64. apply Forall_fmap. exact Hl.
Qed.

Lemma result_dtype_object (l : list Z) (v : Z) :
  In v l -> discover_dtype v = object -> result_dtype l = object.
Proof.
  intros Hin Hv. unfold result_dtype.
  destruct l as [|v0 l]; [destruct Hin|]. simpl.
  destruct Hin as [-> | Hin].
  - rewrite Hv. apply fold_promote_object.
  - apply fold_promote_has_object. rewrite <- Hv. apply in_map, Hin.
Qed.

Lemma result_dtype_float64 (l : list Z) (vi vu : Z) :
  Forall (fun v => fixed_width (discover_dtype v)) l ->
  In vi l -> discover_dtype vi = int64 ->
  In vu l -> discover_dtype vu = uint64 ->
  result_dtype l = float64.
Proof.
  intros Hl Hi Hvi Hu Hvu. unfold result_dtype.
  destruct Hl as [|v l Hv Hl]; [destruct Hi|]. simpl.
  apply fold_promote_mixed.
  - apply Forall_fmap. exact Hl.
  - exact Hv.
  - rewrite <- Hvi. apply (in_map discover_dtype (v :: l)), Hi.
  - rewrite <- Hvu. apply (in_map discover_dtype (v :: l)), Hu.
Qed.

(** ** The decimal value of binary digits *)

Lemma revapp_uint_bits (l m : list bool) :
  Decimal.revapp (uint_bits l) (uint_bits m) = uint_bits (rev l ++ m).
Proof.
  revert m. induction l as [|b l IH]; intros m; [reflexivity|].
  simpl rev. rewrite <- app_assoc. simpl app. rewrite <- IH.
  destruct b; reflexivity.
Qed.

Lemma int_value_of_lu (bs : list bool) :
  decimal_of_bits bs
  = Z.of_N (DecimalPos.Unsigned.of_lu (uint_bits (rev bs))).
Proof.
  unfold decimal_of_bits, Z.of_int, Z.of_uint. rewrite DecimalPos.Unsigned.of_uint_alt.
  unfold Decimal.rev. change Decimal.Nil with (uint_bits []).
  rewrite revapp_uint_bits, app_nil_r. reflexivity.
Qed.

Lemma of_lu_step (b : bool) (l : list bool) :
  DecimalPos.Unsigned.of_lu (uint_bits (b :: l))
  = ((if b then 1 else 0) + 10 * DecimalPos.Unsigned.of_lu (uint_bits l))%N.
Proof. destruct b; reflexivity. Qed.

Lemma of_lu_upper (l : list bool) :
  (9 * DecimalPos.Unsigned.of_lu (uint_bits l) + 1 <= 10 ^ N.of_nat (length l))%N.
Proof.
  induction l as [|b l IH].
  - simpl. lia.
  - rewrite of_lu_step. simpl length. rewrite Nat2N.inj_succ, N.pow_succ_r'.
    destruct b; lia.
Qed.

Lemma of_lu_last_true (l : list bool) :
  (10 ^ N.of_nat (length l) <= DecimalPos.Unsigned.of_lu (uint_bits (l ++ [true])))%N.
Proof.
  induction l as [|b l IH].
  - simpl. lia.
  - simpl app. rewrite of_lu_step. simpl length. rewrite Nat2N.inj_succ, N.pow_succ_r'.
    destruct b; lia.
Qed.

(** The number read from [n] binary digits as decimal digits is at most the
    number written by [n] ones. *)
Lemma int_value_upper (bs : list bool) :
  (0 <= decimal_of_bits bs)%Z /\
  (9 * decimal_of_bits bs + 1 <= 10 ^ Z.of_nat (length bs))%Z.
Proof.
  rewrite int_value_of_lu. split; [lia|].
  pose proof (of_lu_upper (rev bs)) as H. rewrite length_rev in H.
  apply N2Z.inj_le in H. rewrite N2Z.inj_add, N2Z.inj_mul, N2Z.inj_pow in H.
  rewrite nat_N_Z in H. exact H.
Qed.

Lemma int_value_lower (r : list bool) :
  (10 ^ Z.of_nat (length r) <= decimal_of_bits (true :: r))%Z.
Proof.
  rewrite int_value_of_lu. simpl rev.
  pose proof (of_lu_last_true (rev r)) as H. rewrite length_rev in H.
  apply N2Z.inj_le in H. rewrite N2Z.inj_pow, nat_N_Z in H. exact H.
Qed.

(** The index that bits write, split at the leading bit. *)
Lemma fold_bits_step (r : list bool) (k : nat) :
  fold_left bits_step r k = k * 2 ^ length r + fold_left bits_step r 0.
Proof.
  revert k. induction r as [|b r IH]; intros k; simpl; [lia|].
  rewrite (IH (bits_step k b)), (IH (bits_step 0 b)). unfold bits_step. lia.
Qed.

Lemma index_of_bits_bound (r : list bool) : index_of_bits r < 2 ^ length r.
Proof.
  unfold index_of_bits. induction r as [|b r IH] using rev_ind; simpl; [lia|].
  rewrite fold_left_app, length_app, Nat.pow_add_r. simpl. unfold bits_step at 1.
  destruct b; lia.
Qed.

Lemma index_of_bits_cons (b : bool) (r : list bool) :
  index_of_bits (b :: r) = (if b then 2 ^ length r else 0) + index_of_bits r.
Proof.
  unfold index_of_bits. simpl. rewrite fold_bits_step. unfold bits_step.
  destruct b; lia.
Qed.

Lemma discover_int64 (v : Z) : (- 2 ^ 63 <= v < 2 ^ 63)%Z -> discover_dtype v = int64.
Proof.
  intros [H1 H2]. unfold discover_dtype.
  destruct (Z.leb_spec (- 2 ^ 63) v); [|lia].
  destruct (Z.ltb_spec v (2 ^ 63)); [reflexivity | lia].
Qed.

Lemma discover_uint64 (v : Z) : (2 ^ 63 <= v < 2 ^ 64)%Z -> discover_dtype v = uint64.
Proof.
  intros [H1 H2]. unfold discover_dtype.
  destruct (Z.ltb_spec v (2 ^ 63)); [lia|]. rewrite andb_false_r.
  destruct (Z.leb_spec 0 v); [|lia].
  destruct (Z.ltb_spec v (2 ^ 64)); [reflexivity | lia].
Qed.

Lemma discover_object (v : Z) : (2 ^ 64 <= v)%Z -> discover_dtype v = object.
Proof.
  intros H. unfold discover_dtype.
  destruct (Z.ltb_spec v (2 ^ 63)); [lia|]. rewrite andb_false_r.
  destruct (Z.ltb_spec v (2 ^ 64)); [lia|]. rewrite andb_false_r. reflexivity.
Qed.

Lemma decimal_of_bits_false (r : list bool) :
  decimal_of_bits (false :: r) = decimal_of_bits r.
Proof. reflexivity. Qed.

(** The entries of the list of outcomes: each is read from [n] binary
    digits, one of them from digits that start with 1 and one from digits
    that start with 0. *)
Lemma outcome_entries (n : nat) (states : list Z) :
  1 <= n -> state_list n = Ok states ->
  (forall v, In v states -> exists bs, length bs = n /\ v = decimal_of_bits bs) /\
  (exists r, S (length r) = n /\ In (decimal_of_bits (true :: r)) states) /\
  (exists r, S (length r) = n /\ In (decimal_of_bits (false :: r)) states).
Proof.
  intros Hn Hst.
  destruct (state_list_ok n Hn) as (states' & Hst' & Hlen & Hent).
  rewrite Hst in Hst'. injection Hst' as <-.
  assert (Hpow : 2 ^ n = 2 * 2 ^ (n - 1)).
  { destruct n as [|m]; [lia|]. rewrite Nat.pow_succ_r'. f_equal. f_equal. lia. }
  assert (Hpos : 1 <= 2 ^ (n - 1)).
  { pose proof (Nat.pow_nonzero 2 (n - 1)). lia. }
  assert (Hat : forall i, i < 2 ^ n -> exists b r,
             S (length r) = n /\ index_of_bits (b :: r) = i /\
             In (decimal_of_bits (b :: r)) states).
  { intros i Hi.
    destruct (lookup_lt_is_Some_2 states i) as (v & Hv); [lia|].
    destruct (Hent i v Hv) as (bs & Hl & Hidx & -> & _).
    destruct bs as [|b r]; [simpl in Hl; lia|].
    exists b, r. split; [exact Hl|]. split; [exact Hidx|].
    apply list_elem_of_In. eapply list_elem_of_lookup_2. exact Hv. }
  split; [|split].
  - intros v Hv. apply list_elem_of_In, list_elem_of_lookup in Hv.
    destruct Hv as (i & Hv).
    destruct (Hent i v Hv) as (bs & Hl & _ & -> & _). eauto.
  - destruct (Hat (2 ^ (n - 1))) as (b & r & Hl & Hidx & Hin); [lia|].
    exists r. split; [exact Hl|].
    rewrite index_of_bits_cons in Hidx. pose proof (index_of_bits_bound r) as Hb.
    replace (n - 1) with (length r) in Hidx by lia.
    destruct b; [exact Hin | lia].
  - destruct (Hat 0) as (b & r & Hl & Hidx & Hin); [lia|].
    exists r. split; [exact Hl|].
    rewrite index_of_bits_cons in Hidx.
    replace (n - 1) with (length r) in Hpos by lia.
    destruct b; [lia | exact Hin].
Qed.

(** The array of outcomes holds integers, except for 20 qubits, where it
    holds floats. *)
Lemma outcomes_array (n : nat) (states : list Z) :
  1 <= n -> state_list n = Ok states ->
  np_array states = if Nat.eqb n 20 then map FloatElem states else map IntElem states.
Proof.
  intros Hn Hst.
  destruct (outcome_entries n states Hn Hst) as (Hall & (r1 & Hl1 & Hin1) & (r0 & Hl0 & Hin0)).
  pose proof (int_value_lower r1) as Hlow.
  unfold np_array.
  destruct (Nat.eqb_spec n 20) as [-> | Hne].
  - rewrite (result_dtype_float64 states (decimal_of_bits (false :: r0))
               (decimal_of_bits (true :: r1))); try assumption; [reflexivity | | |].
    + apply Forall_forall. intros v Hv. apply list_elem_of_In in Hv.
      destruct (Hall v Hv) as (bs & Hl & ->).
      destruct (int_value_upper bs) as [H0 H1]. rewrite Hl in H1.
      destruct (Z_lt_le_dec (decimal_of_bits bs) (2 ^ 63)).
      * left. apply discover_int64. lia.
      * right. apply discover_uint64. lia.
    + rewrite decimal_of_bits_false.
      destruct (int_value_upper r0) as [H0 H1].
      replace (length r0) with 19 in H1 by lia.
      apply discover_int64. lia.
    + replace (length r1) with 19 in Hlow by lia.
      destruct (int_value_upper (true :: r1)) as [H0 H1].
      simpl length in H1. rewrite Hl1 in H1.
      apply discover_uint64. lia.
  - destruct (le_lt_dec n 19) as [Hle | Hgt].
    + rewrite result_dtype_int64; [reflexivity | intros ->; destruct Hin1 |].
      apply Forall_forall. intros v Hv. apply list_elem_of_In in Hv.
      destruct (Hall v Hv) as (bs & Hl & ->).
      destruct (int_value_upper bs) as [H0 H1]. rewrite Hl in H1.
      assert (Hp : (10 ^ Z.of_nat n <= 10 ^ 19)%Z) by (apply Z.pow_le_mono_r; lia).
      apply discover_int64. lia.
    + rewrite (result_dtype_object states (decimal_of_bits (true :: r1)) Hin1);
        [reflexivity|].
      assert (Hp : (10 ^ 20 <= 10 ^ Z.of_nat (length r1))%Z) by (apply Z.pow_le_mono_r; lia).
      apply discover_object. lia.
Qed.

(** ** The outcomes of measure *)

Lemma probabilities_nil (self : QuantumCircuit) :
  _qubit_array self = [] -> probabilities self = (Raise IndexError, self).
Proof. intros H. unfold probabilities. rewrite H. reflexivity. Qed.

Lemma probabilities_ok_nonempty (self : QuantumCircuit) (w : list R) :
  (probabilities self).1 = Ok w -> 1 <= length (_qubit_array self).
Proof.
  intros H. destruct (_qubit_array self) as [|q0 qs] eqn:E; [|simpl; lia].
  rewrite (probabilities_nil self E) in H. discriminate H.
Qed.

Lemma probabilities_pair (self : QuantumCircuit) :
  probabilities self = ((probabilities self).1, self).
Proof.
  rewrite <- (probabilities_self self) at 3. destruct (probabilities self); reflexivity.
Qed.

Lemma outcomes_array_map (n : nat) (states : list Z) :
  1 <= n -> state_list n = Ok states ->
  np_array states = map (outcome_element n) states.
Proof.
  intros Hn Hst. rewrite (outcomes_array n states Hn Hst).
  unfold outcome_element. destruct (Nat.eqb n 20); reflexivity.
Qed.

Lemma str_element_total (e : element) : exists text, str_element e text.
Proof.
  destruct e as [v | v].
  - eexists. apply str_int.
  - destruct (Z_le_gt_dec (Z.abs v) (2 ^ 53)).
    + eexists. apply str_float_exact. assumption.
    + exists "."%string. apply str_float_rounded; [lia|].
      left. unfold has_char. simpl. auto.
Qed.

(** What a call of measure that returns has drawn: bits [bs] whose index
    has a positive weight; the string returned is the text of the element
    that holds their number, padded to the width of the register. *)
Lemma measure_returns (self self' : QuantumCircuit) (s : string) :
  measure self (Ok s) self' ->
  exists (w : list R) (p : R) (bs : list bool) (text : string),
    (probabilities self).1 = Ok w /\
    w !! index_of_bits bs = Some p /\ (0 < p)%R /\
    length bs = length (_qubit_array self) /\
    zfill (length bs) (str (decimal_of_bits bs)) = bit_string bs /\
    str_element (outcome_element (length bs) (decimal_of_bits bs)) text /\
    s = zfill (length bs) text.
Proof.
  unfold measure. rewrite (probabilities_pair self).
  destruct ((probabilities self).1) as [w|e] eqn:Hp; [|intros [H _]; discriminate H].
  pose proof (probabilities_ok_nonempty self w Hp) as Hn.
  destruct (state_list_ok _ Hn) as (states & Hstates & _ & Hst). rewrite Hstates.
  rewrite (outcomes_array_map _ states Hn Hstates).
  intros (fs & Hch & Hout & _).
  destruct fs as [el|e]; [|discriminate Hout].
  destruct Hout as (text & Htext & Hout). injection Hout as ->.
  inversion Hch as [ | | | | i el' p _ _ _ Hel Hw Hpos]; subst.
  rewrite list_lookup_fmap in Hel.
  destruct (states !! i) as [v|] eqn:Hv; [|discriminate Hel].
  simpl in Hel. injection Hel as <-.
  destruct (Hst i v Hv) as (bs & Hl & <- & -> & Hz).
  exists w, p, bs, text. rewrite Hl. auto 10.
Qed.

(** With weights that form a distribution, measure may return the padded
    text of the element at every index whose weight is positive. *)
Lemma measure_may_return (self : QuantumCircuit) (w : list R) (i : nat) (p : R) :
  (probabilities self).1 = Ok w ->
  length w = 2 ^ length (_qubit_array self) ->
  Forall (fun p => (0 <= p)%R) w -> sum_list w = 1%R ->
  w !! i = Some p -> (0 < p)%R ->
  exists bs : list bool,
    length bs = length (_qubit_array self) /\ index_of_bits bs = i /\
    forall text,
      str_element (outcome_element (length bs) (decimal_of_bits bs)) text ->
      measure self (Ok (zfill (length bs) text)) self.
Proof.
  intros Hp Hlen Hpos Hsum Hi Hgt.
  pose proof (probabilities_ok_nonempty self w Hp) as Hn.
  destruct (state_list_ok _ Hn) as (states & Hstates & Hsl & Hst).
  destruct (lookup_lt_is_Some_2 states i) as (v & Hv);
    [rewrite Hsl, <- Hlen; eapply lookup_lt_Some; exact Hi|].
  destruct (Hst i v Hv) as (bs & Hl & Hidx & -> & Hz).
  exists bs. split; [exact Hl|]. split; [exact Hidx|].
  intros text Htext.
  unfold measure. rewrite (probabilities_pair self), Hp, Hstates.
  rewrite (outcomes_array_map _ states Hn Hstates).
  exists (Ok (outcome_element (length (_qubit_array self)) (decimal_of_bits bs))).
  split; [|split; [|reflexivity]].
  - apply (choice_draw _ w i _ p); try assumption.
    + rewrite length_map. lia.
    + rewrite list_lookup_fmap, Hv. reflexivity.
  - simpl. rewrite <- Hl. exists text. auto.
Qed.

(** With weights that form a distribution, measure raises nothing. *)
Lemma measure_no_raise (self self' : QuantumCircuit) (w : list R) (out : result string) :
  (probabilities self).1 = Ok w ->
  length w = 2 ^ length (_qubit_array self) ->
  Forall (fun p => (0 <= p)%R) w -> sum_list w = 1%R ->
  measure self out self' -> exists s, out = Ok s.
Proof.
  intros Hp Hlen Hpos Hsum.
  pose proof (probabilities_ok_nonempty self w Hp) as Hn.
  destruct (state_list_ok _ Hn) as (states & Hstates & Hsl & _).
  unfold measure. rewrite (probabilities_pair self), Hp, Hstates.
  rewrite (outcomes_array_map _ states Hn Hstates).
  intros (fs & Hch & Hout & _).
  pose proof (Nat.pow_nonzero 2 (length (_qubit_array self))) as Hz.
  inversion Hch as [E | E | E | E | i v p _ _ _ _ _ _]; subst; simpl in Hout.
  - apply (f_equal length) in E. rewrite length_map in E. simpl in E. lia.
  - rewrite length_map in E. lia.
  - exfalso. apply Exists_exists in E. destruct E as (x & Hx & Hneg).
    rewrite Forall_forall in Hpos. specialize (Hpos x Hx). simpl in Hpos. lra.
  - contradiction.
  - destruct Hout as (text & _ & ->). eauto.
Qed.

Lemma measure_self (self self' : QuantumCircuit) (out : result string) :
  measure self out self' -> self' = self.
Proof.
  unfold measure. rewrite (probabilities_pair self).
  destruct (probabilities self).1; [|intros [_ ->]; reflexivity].
  destruct (state_list _); [intros (fs & _ & _ & ->) | intros [_ ->]]; reflexivity.
Qed.

(** ** The weights of a register that no gate has touched *)

Section Basis.
Local Open Scope R_scope.

Lemma Cmul_C0_l (u : C) : Cmul C0 u = C0.
Proof. apply C_eq; simpl; ring. Qed.

Lemma Cmul_C0_r (u : C) : Cmul u C0 = C0.
Proof. apply C_eq; simpl; ring. Qed.

Lemma Cmul_C1_r (u : C) : Cmul u C1 = u.
Proof. apply C_eq; simpl; ring. Qed.

Lemma weight_C0 : weight C0 = 0.
Proof. rewrite weight_unfold; simpl. replace (0 * 0 - 0 * 0) with 0 by ring. apply Rabs_R0. Qed.

Lemma weight_C1 : weight C1 = 1.
Proof. rewrite weight_unfold; simpl. replace (1 * 1 - 0 * 0) with 1 by ring. apply Rabs_R1. Qed.

Lemma amp_bit_qubit (b b' : bool) :
  amp (bit_qubit b) b' = if bool_decide (b = b') then C1 else C0.
Proof. destruct b, b'; reflexivity. Qed.

Lemma fold_Cmul_C0 (l : list C) : fold_left Cmul l C0 = C0.
Proof. induction l as [|v l IH]; simpl; [reflexivity | rewrite Cmul_C0_l; exact IH]. Qed.

Lemma fold_amp_basis (r : list bool) :
  forall (r' : list bool) (u : C), length r' = length r ->
    fold_left Cmul (zip_with amp (map bit_qubit r) r') u
    = if bool_decide (r = r') then u else C0.
Proof.
  induction r as [|b r IH]; intros r' u Hlen.
  - destruct r'; [reflexivity | discriminate].
  - destruct r' as [|b' r']; [discriminate|]. simpl.
    rewrite amp_bit_qubit, IH by (simpl in Hlen; lia).
    repeat case_bool_decide; simplify_eq;
      rewrite ?Cmul_C1_r, ?Cmul_C0_r; congruence.
Qed.

(** On the register built from the bits [bs], the weight at the index that
    the bits [bs'] write is 1 when [bs'] is [bs] and 0 otherwise. *)
Lemma basis_weights (bit_str : string) (bs bs' : list bool) (w : list R) :
  bs <> [] -> length bs' = length bs ->
  (probabilities (mkQuantumCircuit bit_str (map bit_qubit bs))).1 = Ok w ->
  w !! index_of_bits bs' = Some (if bool_decide (bs = bs') then 1 else 0).
Proof.
  intros Hne Hlen Hw.
  destruct bs as [|b0 r]; [congruence|]. destruct bs' as [|b0' r']; [discriminate|].
  simpl map in Hw. rewrite probabilities_cons in Hw. injection Hw as <-.
  rewrite list_lookup_fmap. unfold index_of_bits. simpl fold_left at 1.
  rewrite (kron_rest_lookup (map bit_qubit r) (state (bit_qubit b0)) r'
             (bits_step 0 b0') (amp (bit_qubit b0) b0'));
    [|rewrite length_map; simpl in Hlen; lia | destruct b0'; reflexivity].
  simpl. f_equal.
  rewrite fold_amp_basis by (simpl in Hlen; lia). rewrite amp_bit_qubit.
  repeat case_bool_decide; simplify_eq;
    first [apply weight_C1 | apply weight_C0 | congruence].
Qed.

End Basis.

(** On a register built from the bits [bs] and touched by no gate, the
    outcomes of measure are the padded texts of the element that holds the
    number read from [bs]. *)
Lemma measure_fresh_register (bit_str : string) (bs : list bool) :
  bs <> [] -> reachable (mkQuantumCircuit bit_str (map bit_qubit bs)) ->
  (forall text,
     str_element (outcome_element (length bs) (decimal_of_bits bs)) text ->
     measure (mkQuantumCircuit bit_str (map bit_qubit bs))
       (Ok (zfill (length bs) text)) (mkQuantumCircuit bit_str (map bit_qubit bs))) /\
  (forall out self',
     measure (mkQuantumCircuit bit_str (map bit_qubit bs)) out self' ->
     exists text,
       str_element (outcome_element (length bs) (decimal_of_bits bs)) text /\
       out = Ok (zfill (length bs) text)).
Proof.
  intros Hbs Hr. set (self := mkQuantumCircuit bit_str (map bit_qubit bs)) in *.
  destruct (reachable_probabilities self Hr) as (w & Hp & Hlen & Hpos & Hsum);
    [simpl; destruct bs; [congruence | discriminate]|].
  assert (Hn : length (_qubit_array self) = length bs) by apply length_map.
  assert (Hone : forall bs' p, length bs' = length bs ->
            w !! index_of_bits bs' = Some p -> (0 < p)%R -> bs' = bs).
  { intros bs' p Hl Hw Hgt.
    rewrite (basis_weights _ bs bs' w Hbs Hl Hp) in Hw. injection Hw as <-.
    destruct (decide (bs = bs')) as [-> | Hd]; [reflexivity|].
    rewrite bool_decide_eq_false_2 in Hgt by exact Hd. lra. }
  split.
  - intros text Htext.
    pose proof (basis_weights _ bs bs w Hbs eq_refl Hp) as Hw.
    rewrite bool_decide_eq_true_2 in Hw by reflexivity.
    destruct (measure_may_return self w (index_of_bits bs) 1%R Hp Hlen Hpos Hsum Hw)
      as (bs' & Hl & Hidx & Hm); [lra|].
    rewrite Hn in Hl. rewrite <- Hidx in Hw.
    pose proof (Hone bs' 1%R Hl Hw ltac:(lra)) as ->.
    apply Hm, Htext.
  - intros out self' Hm.
    destruct (measure_no_raise self self' w out Hp Hlen Hpos Hsum Hm) as (s & ->).
    destruct (measure_returns _ _ _ Hm)
      as (w' & p & bs' & text & Hp' & Hw & Hgt & Hl & _ & Htext & ->).
    rewrite Hp in Hp'. injection Hp' as <-. rewrite Hn in Hl.
    pose proof (Hone bs' p Hl Hw Hgt) as ->. eauto.
Qed.

Lemma init_bits (bit_str : string) (bs : list bool) :
  list_ascii_of_string bit_str = map bit_char bs ->
  __init__ bit_str = Ok (mkQuantumCircuit bit_str (map bit_qubit bs)).
Proof. intros H. unfold __init__. rewrite H, init_loop_bits. reflexivity. Qed.

Lemma str_element_int (n : nat) (v : Z) (text : string) :
  n <> 20 -> str_element (outcome_element n v) text -> text = str v.
Proof.
  intros Hn. unfold outcome_element.
  destruct (Nat.eqb_spec n 20); [contradiction|].
  inversion 1. reflexivity.
Qed.

(** ** C4: the shape of what measure returns *)

Lemma bit_string_binary (bs : list bool) :
  Forall binary_digit (list_ascii_of_string (bit_string bs)).
Proof.
  rewrite bit_string_chars.
  induction bs as [|[] bs IH]; simpl; constructor; unfold binary_digit; auto.
Qed.

Lemma binary_chars_bits (l : list ascii) :
  Forall binary_digit l -> exists bs : list bool, l = map bit_char bs.
Proof.
  induction 1 as [|c l Hc _ (bs & ->)]; [exists []; reflexivity|].
  destruct Hc as [-> | ->]; [exists (false :: bs) | exists (true :: bs)]; reflexivity.
Qed.

(** On a register whose number of qubits [n] is not 20, every string that
    measure returns has [n] characters, each '0' or '1'. *)
Lemma measure_result_shape (self self' : QuantumCircuit) (s : string) :
  length (_qubit_array self) <> 20 ->
  measure self (Ok s) self' ->
  String.length s = length (_qubit_array self) /\
  Forall binary_digit (list_ascii_of_string s).
Proof.
  intros Hn Hm.
  destruct (measure_returns _ _ _ Hm) as (w & p & bs & text & _ & _ & _ & Hl & Hz & Ht & ->).
  rewrite <- Hl in Hn. rewrite (str_element_int _ _ _ Hn Ht), Hz.
  split; [rewrite bit_string_length; exact Hl | apply bit_string_binary].
Qed.

(** C4, at a register on which it fails.  The register built from twenty
    '0' characters has 20 qubits.  Its list of outcomes holds 0, of the
    signed 64-bit range, and 10000000000000000000, above that range, so the
    array that the draw is made from holds floats; the element drawn is the
    float 0.0, and every call of measure returns "000000000000000000.0",
    which has a character that is no binary digit. *)
Theorem measure_twenty_qubits :
  exists self : QuantumCircuit,
    __init__ twenty_zeros = Ok self /\
    length (_qubit_array self) = 20 /\
    measure self (Ok "000000000000000000.0"%string) self /\
    (forall out self', measure self out self' ->
       out = Ok "000000000000000000.0"%string) /\
    ~ Forall binary_digit (list_ascii_of_string "000000000000000000.0").
Proof.
  set (bs := replicate 20 false).
  assert (Hinit : __init__ twenty_zeros
                  = Ok (mkQuantumCircuit twenty_zeros (map bit_qubit bs)))
    by reflexivity.
  exists (mkQuantumCircuit twenty_zeros (map bit_qubit bs)).
  split; [exact Hinit|]. split; [reflexivity|].
  destruct (measure_fresh_register twenty_zeros bs) as [Hcan Honly];
    [discriminate | eapply reach_init; exact Hinit |].
  assert (Hel : outcome_element (length bs) (decimal_of_bits bs) = FloatElem 0)
    by reflexivity.
  rewrite Hel in Hcan, Honly.
  assert (Hz : zfill (length bs) (str 0 ++ ".0") = "000000000000000000.0"%string)
    by reflexivity.
  split; [|split].
  - rewrite <- Hz. apply Hcan.
    apply (str_float_exact 0). simpl; lia.
  - intros out self' Hm.
    destruct (Honly out self' Hm) as (text & Ht & ->).
    inversion Ht as [ | v Hv | v s Hv _]; subst; [reflexivity|].
    simpl in Hv. lia.
  - intros H. apply Forall_forall with (x := "."%char) in H.
    + destruct H as [H | H]; discriminate H.
    + apply list_elem_of_In. simpl. do 18 right. left. reflexivity.
Qed.

(** ** C5: measure on a register that no gate has touched *)

(** C5, as it fails: the empty string is a string of 0/1 characters that
    [__init__] accepts, and on its register measure raises [IndexError]
    (from [q[0]] in probabilities) and returns no string. *)
Lemma measure_empty_register :
  __init__ "" = Ok reg_empty /\
  measure reg_empty (Raise IndexError) reg_empty /\
  ~ exists self', measure reg_empty (Ok ""%string) self'.
Proof.
  split; [reflexivity|]. split; [split; reflexivity|].
  intros (self' & Hm). destruct Hm as [Hm _]. discriminate Hm.
Qed.

(** C5, amended.  For every nonempty string of '0' and '1' characters, of a
    length other than 20, [__init__] returns a register, and on that
    register, with no gate applied, measure can return the input string and
    every call of measure returns it, leaving the register as it was. *)
Theorem measure_returns_input (bit_str : string) :
  bit_str <> EmptyString ->
  String.length bit_str <> 20 ->
  Forall binary_digit (list_ascii_of_string bit_str) ->
  exists self : QuantumCircuit,
    __init__ bit_str = Ok self /\
    measure self (Ok bit_str) self /\
    forall out self', measure self out self' -> out = Ok bit_str /\ self' = self.
Proof.
  intros Hne Hlen Hbin.
  destruct (binary_chars_bits _ Hbin) as (bs & Hbs).
  pose proof (init_bits bit_str bs Hbs) as Hinit.
  apply bit_string_of_chars in Hbs.
  assert (Hnil : bs <> []) by (intros ->; apply Hne; exact Hbs).
  assert (Hl : length bs <> 20) by (rewrite <- bit_string_length, <- Hbs; exact Hlen).
  destruct (int_str_bit_string bs Hnil) as [_ Hz].
  destruct (measure_fresh_register bit_str bs Hnil) as [Hcan Honly];
    [eapply reach_init; exact Hinit|].
  eexists. split; [exact Hinit|]. split.
  - rewrite Hbs at 2. rewrite <- Hz. apply Hcan.
    unfold outcome_element. destruct (Nat.eqb_spec (length bs) 20); [contradiction|].
    apply str_int.
  - intros out self' Hm. split; [|exact (measure_self _ _ _ Hm)].
    destruct (Honly out self' Hm) as (text & Ht & ->).
    rewrite (str_element_int _ _ _ Hl Ht), Hz, Hbs. reflexivity.
Qed.

Lemma measure_returns_input_witness :
  "01"%string <> EmptyString /\
  String.length "01" <> 20 /\
  Forall binary_digit (list_ascii_of_string "01") /\
  exists self : QuantumCircuit,
    __init__ "01" = Ok self /\
    measure self (Ok "01"%string) self /\
    forall out self', measure self out self' -> out = Ok "01"%string /\ self' = self.
Proof.
  assert (Hne : "01"%string <> EmptyString) by discriminate.
  assert (Hlen : String.length "01" <> 20) by (simpl; lia).
  assert (Hbin : Forall binary_digit (list_ascii_of_string "01"))
    by (simpl; repeat constructor; unfold binary_digit; auto).
  split; [exact Hne|]. split; [exact Hlen|]. split; [exact Hbin|].
  apply (measure_returns_input "01" Hne Hlen Hbin).
Defined.

(** ** C10: the weights of a reachable register are a distribution *)

(** C10.  In a register reached from construction by calls of the five
    gates, every vector that probabilities returns has nonnegative entries
    that sum to exactly 1, and probabilities returns one whenever the
    register has a qubit; so no call of measure ends in the [ValueError] of
    the weighted draw, and with a qubit in the register measure returns a
    string and raises nothing. *)
Theorem reachable_weights_sum_one (self : QuantumCircuit) :
  reachable self ->
  (forall w : list R, (probabilities self).1 = Ok w ->
     sum_list w = 1%R /\ Forall (fun p => (0 <= p)%R) w) /\
  (forall out self', measure self out self' -> out <> Raise ValueError) /\
  (_qubit_array self <> [] ->
     (exists w : list R, (probabilities self).1 = Ok w) /\
     (exists s : string, measure self (Ok s) self) /\
     (forall out self', measure self out self' -> exists s, out = Ok s)).
Proof.
  intros Hr.
  assert (Hw : forall w, (probabilities self).1 = Ok w ->
            length w = 2 ^ length (_qubit_array self) /\
            sum_list w = 1%R /\ Forall (fun p => (0 <= p)%R) w).
  { intros w Hp.
    destruct (reachable_probabilities self Hr) as (w' & Hp' & Hlen & Hpos & Hsum).
    - pose proof (probabilities_ok_nonempty self w Hp) as Hn.
      intros E. rewrite E in Hn. simpl in Hn. lia.
    - rewrite Hp in Hp'. injection Hp' as <-. auto. }
  split; [intros w Hp; destruct (Hw w Hp) as (_ & ? & ?); auto|].
  split.
  - intros out self' Hm ->.
    destruct (_qubit_array self) as [|q0 qs] eqn:E.
    + unfold measure in Hm. rewrite (probabilities_nil self E) in Hm.
      destruct Hm as [Hm _]. discriminate Hm.
    + destruct (reachable_probabilities self Hr) as (w & Hp & Hlen & Hpos & Hsum);
        [rewrite E; discriminate|].
      destruct (measure_no_raise self self' w _ Hp Hlen Hpos Hsum Hm) as (s & Hs).
      discriminate Hs.
  - intros Hne.
    destruct (reachable_probabilities self Hr Hne) as (w & Hp & Hlen & Hpos & Hsum).
    split; [exists w; exact Hp|]. split.
    + destruct (sum_one_positive w Hpos Hsum) as (i & p & Hi & Hgt).
      destruct (measure_may_return self w i p Hp Hlen Hpos Hsum Hi Hgt)
        as (bs & _ & _ & Hm).
      destruct (str_element_total (outcome_element (length bs) (decimal_of_bits bs)))
        as (text & Ht).
      eexists. apply Hm, Ht.
    + intros out self' Hm.
      exact (measure_no_raise self self' w out Hp Hlen Hpos Hsum Hm).
Qed.

Lemma reachable_weights_sum_one_witness :
  reachable reg_0_y /\
  (forall w : list R, (probabilities reg_0_y).1 = Ok w ->
     sum_list w = 1%R /\ Forall (fun p => (0 <= p)%R) w) /\
  (forall out self', measure reg_0_y out self' -> out <> Raise ValueError) /\
  (_qubit_array reg_0_y <> [] ->
     (exists w : list R, (probabilities reg_0_y).1 = Ok w) /\
     (exists s : string, measure reg_0_y (Ok s) reg_0_y) /\
     (forall out self', measure reg_0_y out self' -> exists s, out = Ok s)).
Proof.
  split; [exact reachable_reg_0_y
         | apply (reachable_weights_sum_one reg_0_y reachable_reg_0_y)].
Defined.

(** * Further properties of the gate methods *)

Lemma py_index_outside (n : nat) (bit : Z) :
  (bit < - Z.of_nat n \/ Z.of_nat n <= bit)%Z -> py_index n bit = Raise IndexError.
Proof.
  intros H. unfold py_index.
  destruct (Z.leb_spec 0 bit), (Z.ltb_spec bit (Z.of_nat n)),
    (Z.leb_spec (- Z.of_nat n) bit), (Z.ltb_spec bit 0); simpl; try reflexivity; lia.
Qed.

Lemma py_index_negative (n : nat) (bit : Z) :
  (- Z.of_nat n <= bit < 0)%Z -> py_index n bit = Ok (Z.to_nat (Z.of_nat n + bit)).
Proof.
  intros H. unfold py_index.
  destruct (Z.leb_spec 0 bit), (Z.ltb_spec bit (Z.of_nat n)),
    (Z.leb_spec (- Z.of_nat n) bit), (Z.ltb_spec bit 0); simpl; try reflexivity; lia.
Qed.

(** A gate call whose index [py_index] accepts. *)
Lemma apply_matrix_at (m : Matrix2) (bit : Z) (i : nat) (self : QuantumCircuit) :
  py_index (length (_qubit_array self)) bit = Ok i ->
  exists qb,
    _qubit_array self !! i = Some qb /\
    apply_matrix m bit self =
      (Ok tt, mkQuantumCircuit (_bit_str self) (<[i := dot m qb]> (_qubit_array self))).
Proof.
  intros Hi. unfold apply_matrix. rewrite Hi.
  destruct (lookup_lt_is_Some_2 (_qubit_array self) i) as [qb Hq];
    [eapply py_index_bound; exact Hi|].
  exists qb. rewrite Hq. auto.
Qed.

Lemma py_index_same_length (n : nat) (bit : Z) (i : nat) (arr arr' : list Qubit) :
  length arr' = length arr ->
  py_index (length arr) bit = Ok i -> py_index (length arr') bit = Ok i.
Proof. intros ->. auto. Qed.

(** X1.  A gate call with an index below [-n] or from [n] on, [n] the
    number of qubits, raises [IndexError] and leaves the register as it
    was; in particular every gate call on a register without qubits does. *)
Theorem gate_call_out_of_range (g : gate_name) (bit : Z) (self : QuantumCircuit) :
  (bit < - Z.of_nat (length (_qubit_array self))
   \/ Z.of_nat (length (_qubit_array self)) <= bit)%Z ->
  gate_call g bit self = (Raise IndexError, self).
Proof.
  intros H. rewrite gate_call_apply. unfold apply_matrix.
  rewrite (py_index_outside _ _ H). reflexivity.
Qed.

Lemma gate_call_out_of_range_witness :
  (2 < - Z.of_nat (length (_qubit_array reg_01))
   \/ Z.of_nat (length (_qubit_array reg_01)) <= 2)%Z /\
  gate_call GHadamard 2 reg_01 = (Raise IndexError, reg_01).
Proof.
  assert (H : (2 < - Z.of_nat (length (_qubit_array reg_01))
               \/ Z.of_nat (length (_qubit_array reg_01)) <= 2)%Z)
    by (right; simpl; lia).
  split; [exact H | apply (gate_call_out_of_range GHadamard 2 reg_01 H)].
Defined.

(** X2.  A gate call with a negative index [bit] from [-n] on does what the
    call with the index [n + bit] does: the index counts from the end of
    the register, and the call returns. *)
Theorem gate_call_negative_index (g : gate_name) (bit : Z) (self : QuantumCircuit) :
  (- Z.of_nat (length (_qubit_array self)) <= bit < 0)%Z ->
  gate_call g bit self
  = gate_call g (Z.of_nat (length (_qubit_array self)) + bit) self /\
  exists self', gate_call g bit self = (Ok tt, self').
Proof.
  intros H. rewrite !gate_call_apply.
  pose proof (py_index_negative _ _ H) as Hneg.
  assert (Hpos : py_index (length (_qubit_array self))
                   (Z.of_nat (length (_qubit_array self)) + bit)
                 = Ok (Z.to_nat (Z.of_nat (length (_qubit_array self)) + bit)))
    by (apply py_index_valid; lia).
  destruct (apply_matrix_at (gate_matrix g) _ _ self Hneg) as (qb & Hq & E1).
  destruct (apply_matrix_at (gate_matrix g) _ _ self Hpos) as (qb' & Hq' & E2).
  rewrite Hq in Hq'. injection Hq' as <-.
  rewrite E1, E2. split; [reflexivity | eauto].
Qed.

Lemma gate_call_negative_index_witness :
  (- Z.of_nat (length (_qubit_array reg_01)) <= -1 < 0)%Z /\
  gate_call GX (-1) reg_01
  = gate_call GX (Z.of_nat (length (_qubit_array reg_01)) + -1) reg_01 /\
  exists self', gate_call GX (-1) reg_01 = (Ok tt, self').
Proof.
  assert (H : (- Z.of_nat (length (_qubit_array reg_01)) <= -1 < 0)%Z)
    by (simpl; lia).
  split; [exact H | apply (gate_call_negative_index GX (-1) reg_01 H)].
Defined.

Section Gate_Algebra.
Local Open Scope R_scope.

Lemma dot_identity (qb : Qubit) : dot identity_gate qb = qb.
Proof.
  destruct qb as [[r0 i0] [r1 i1]]. unfold dot, identity_gate; simpl.
  f_equal; apply C_eq; simpl; ring.
Qed.

Lemma dot_x_twice (qb : Qubit) : dot x_gate (dot x_gate qb) = qb.
Proof.
  destruct qb as [[r0 i0] [r1 i1]]. unfold dot, x_gate; simpl.
  f_equal; apply C_eq; simpl; ring.
Qed.

Lemma dot_y_twice (qb : Qubit) : dot y_gate (dot y_gate qb) = qb.
Proof.
  destruct qb as [[r0 i0] [r1 i1]]. unfold dot, y_gate; simpl.
  f_equal; apply C_eq; simpl; ring.
Qed.

Lemma dot_z_twice (qb : Qubit) : dot z_gate (dot z_gate qb) = qb.
Proof.
  destruct qb as [[r0 i0] [r1 i1]]. unfold dot, z_gate; simpl.
  f_equal; apply C_eq; simpl; ring.
Qed.

End Gate_Algebra.

(** Two calls with a matrix that is its own inverse, at one index. *)
Lemma apply_matrix_twice (m : Matrix2) (bit : Z) (self : QuantumCircuit) :
  (forall qb, dot m (dot m qb) = qb) ->
  (- Z.of_nat (length (_qubit_array self)) <= bit
   < Z.of_nat (length (_qubit_array self)))%Z ->
  exists self1,
    apply_matrix m bit self = (Ok tt, self1) /\
    apply_matrix m bit self1 = (Ok tt, self).
Proof.
  intros Hinv Hbit.
  assert (Hidx : exists i, py_index (length (_qubit_array self)) bit = Ok i).
  { destruct (Z_lt_le_dec bit 0).
    - eexists. apply py_index_negative. lia.
    - eexists. apply py_index_valid. lia. }
  destruct Hidx as (i & Hi).
  destruct (apply_matrix_at m bit i self Hi) as (qb & Hq & Hcall).
  eexists. split; [exact Hcall|].
  set (self1 := mkQuantumCircuit _ _) in *.
  assert (Hlen : length (_qubit_array self1) = length (_qubit_array self))
    by apply length_insert.
  assert (Hi1 : py_index (length (_qubit_array self1)) bit = Ok i)
    by (rewrite Hlen; exact Hi).
  destruct (apply_matrix_at m bit i self1 Hi1) as (qb1 & Hq1 & Hcall1).
  rewrite Hcall1. f_equal.
  assert (E : qb1 = dot m qb).
  { subst self1. simpl in Hq1. rewrite list_lookup_insert_eq in Hq1; [congruence|].
    eapply lookup_lt_Some. exact Hq. }
  rewrite E, Hinv. subst self1; simpl.
  rewrite list_insert_insert_eq, list_insert_id by exact Hq.
  destruct self; reflexivity.
Qed.

(** X3.  A call of identity at an index of the register, counted from the
    front or from the end, returns and leaves the whole register as it
    was. *)
Theorem identity_keeps_register (bit : Z) (self : QuantumCircuit) :
  (- Z.of_nat (length (_qubit_array self)) <= bit
   < Z.of_nat (length (_qubit_array self)))%Z ->
  identity bit self = (Ok tt, self).
Proof.
  intros Hbit. unfold identity.
  assert (Hidx : exists i, py_index (length (_qubit_array self)) bit = Ok i).
  { destruct (Z_lt_le_dec bit 0).
    - eexists. apply py_index_negative. lia.
    - eexists. apply py_index_valid. lia. }
  destruct Hidx as (i & Hi).
  destruct (apply_matrix_at identity_gate bit i self Hi) as (qb & Hq & ->).
  rewrite dot_identity, list_insert_id by exact Hq.
  destruct self; reflexivity.
Qed.

Lemma identity_keeps_register_witness :
  (- Z.of_nat (length (_qubit_array reg_01)) <= 1
   < Z.of_nat (length (_qubit_array reg_01)))%Z /\
  identity 1 reg_01 = (Ok tt, reg_01).
Proof.
  assert (H : (- Z.of_nat (length (_qubit_array reg_01)) <= 1
               < Z.of_nat (length (_qubit_array reg_01)))%Z) by (simpl; lia).
  split; [exact H | apply (identity_keeps_register 1 reg_01 H)].
Defined.

(** X4.  Each of x, y and z called twice at one index of the register
    returns both times and gives back the register it started from. *)
Theorem pauli_twice (g : gate_name) (bit : Z) (self : QuantumCircuit) :
  g = GX \/ g = GY \/ g = GZ ->
  (- Z.of_nat (length (_qubit_array self)) <= bit
   < Z.of_nat (length (_qubit_array self)))%Z ->
  exists self1,
    gate_call g bit self = (Ok tt, self1) /\
    gate_call g bit self1 = (Ok tt, self).
Proof.
  intros Hg Hbit.
  assert (Hinv : forall qb, dot (gate_matrix g) (dot (gate_matrix g) qb) = qb).
  { destruct Hg as [-> | [-> | ->]]; simpl;
      [apply dot_x_twice | apply dot_y_twice | apply dot_z_twice]. }
  destruct (apply_matrix_twice (gate_matrix g) bit self Hinv Hbit) as (self1 & H1 & H2).
  exists self1. rewrite !gate_call_apply. auto.
Qed.

Lemma pauli_twice_witness :
  (GY = GX \/ GY = GY \/ GY = GZ) /\
  (- Z.of_nat (length (_qubit_array reg_01)) <= 0
   < Z.of_nat (length (_qubit_array reg_01)))%Z /\
  exists self1,
    gate_call GY 0 reg_01 = (Ok tt, self1) /\
    gate_call GY 0 self1 = (Ok tt, reg_01).
Proof.
  assert (Hg : GY = GX \/ GY = GY \/ GY = GZ) by (right; left; reflexivity).
  assert (H : (- Z.of_nat (length (_qubit_array reg_01)) <= 0
               < Z.of_nat (length (_qubit_array reg_01)))%Z) by (simpl; lia).
  split; [exact Hg|]. split; [exact H | apply (pauli_twice GY 0 reg_01 Hg H)].
Defined.

(** X5.  Two gate calls at different qubits of the register can be made in
    either order: both orders return and end in the same register. *)
Theorem gate_calls_commute (g1 g2 : gate_name) (bit1 bit2 : Z) (self : QuantumCircuit) :
  (0 <= bit1 < Z.of_nat (length (_qubit_array self)))%Z ->
  (0 <= bit2 < Z.of_nat (length (_qubit_array self)))%Z ->
  bit1 <> bit2 ->
  exists self1 self2 self12,
    gate_call g1 bit1 self = (Ok tt, self1) /\
    gate_call g2 bit2 self1 = (Ok tt, self12) /\
    gate_call g2 bit2 self = (Ok tt, self2) /\
    gate_call g1 bit1 self2 = (Ok tt, self12).
Proof.
  intros H1 H2 Hne.
  destruct (apply_matrix_valid (gate_matrix g1) bit1 self H1) as (qa & Hqa & E1).
  destruct (apply_matrix_valid (gate_matrix g2) bit2 self H2) as (qb & Hqb & E2).
  assert (Hij : Z.to_nat bit1 <> Z.to_nat bit2) by lia.
  set (self1 := mkQuantumCircuit (_bit_str self)
                  (<[Z.to_nat bit1 := dot (gate_matrix g1) qa]> (_qubit_array self))) in *.
  set (self2 := mkQuantumCircuit (_bit_str self)
                  (<[Z.to_nat bit2 := dot (gate_matrix g2) qb]> (_qubit_array self))) in *.
  destruct (apply_matrix_valid (gate_matrix g2) bit2 self1) as (qb' & Hqb' & E12);
    [simpl; rewrite length_insert; exact H2|].
  destruct (apply_matrix_valid (gate_matrix g1) bit1 self2) as (qa' & Hqa' & E21);
    [simpl; rewrite length_insert; exact H1|].
  simpl in Hqb', Hqa'.
  rewrite list_lookup_insert_ne in Hqb' by exact Hij.
  rewrite list_lookup_insert_ne in Hqa' by (intros E'; apply Hij; auto).
  rewrite Hqb in Hqb'. injection Hqb' as <-.
  rewrite Hqa in Hqa'. injection Hqa' as <-.
  exists self1, self2, (mkQuantumCircuit (_bit_str self1)
                    (<[Z.to_nat bit2 := dot (gate_matrix g2) qb]> (_qubit_array self1))).
  rewrite !gate_call_apply.
  split; [exact E1|]. split; [exact E12|]. split; [exact E2|].
  rewrite E21. f_equal. subst self1 self2. simpl.
  rewrite list_insert_insert_ne by exact Hij. reflexivity.
Qed.

Lemma gate_calls_commute_witness :
  (0 <= 0 < Z.of_nat (length (_qubit_array reg_01)))%Z /\
  (0 <= 1 < Z.of_nat (length (_qubit_array reg_01)))%Z /\
  0%Z <> 1%Z /\
  exists self1 self2 self12,
    gate_call GHadamard 0 reg_01 = (Ok tt, self1) /\
    gate_call GY 1 self1 = (Ok tt, self12) /\
    gate_call GY 1 reg_01 = (Ok tt, self2) /\
    gate_call GHadamard 0 self2 = (Ok tt, self12).
Proof.
  assert (H1 : (0 <= 0 < Z.of_nat (length (_qubit_array reg_01)))%Z) by (simpl; lia).
  assert (H2 : (0 <= 1 < Z.of_nat (length (_qubit_array reg_01)))%Z) by (simpl; lia).
  assert (Hne : 0%Z <> 1%Z) by discriminate.
  split; [exact H1|]. split; [exact H2|]. split; [exact Hne|].
  apply (gate_calls_commute GHadamard GY 0 1 reg_01 H1 H2 Hne).
Defined.

(** * Further properties of construction *)

Lemma string_length_chars (s : string) :
  String.length s = length (list_ascii_of_string s).
Proof. induction s as [|c s IH]; simpl; [reflexivity | rewrite IH; reflexivity]. Qed.

Lemma bit_char_binary (bs : list bool) : Forall binary_digit (map bit_char bs).
Proof.
  induction bs as [|[] bs IH]; simpl; constructor; unfold binary_digit; auto.
Qed.

Lemma bit_char_is_one (b : bool) : Ascii.eqb (bit_char b) "1" = b.
Proof. destruct b; reflexivity. Qed.

Lemma bits_of_chars (bs : list bool) :
  map (fun c => Ascii.eqb c "1") (map bit_char bs) = bs.
Proof.
  induction bs as [|b bs IH]; simpl; [reflexivity|].
  rewrite bit_char_is_one, IH. reflexivity.
Qed.

Lemma binary_value_bits (bit_str : string) (bs : list bool) :
  list_ascii_of_string bit_str = map bit_char bs ->
  binary_value bit_str = index_of_bits bs.
Proof. intros H. unfold binary_value. rewrite H, bits_of_chars. reflexivity. Qed.

(** X6.  For every string whose characters are all '0' or '1', the empty
    string among them, [__init__] returns a register; the register keeps
    the string, has one qubit for each character, and the qubit at the
    place of a character is the basis state of that bit. *)
Theorem init_builds_basis_register (bit_str : string) :
  Forall binary_digit (list_ascii_of_string bit_str) ->
  exists self : QuantumCircuit,
    __init__ bit_str = Ok self /\
    _bit_str self = bit_str /\
    length (_qubit_array self) = String.length bit_str /\
    forall (i : nat) (c : ascii),
      list_ascii_of_string bit_str !! i = Some c ->
      _qubit_array self !! i = Some (if Ascii.eqb c "1" then q_one else q_zero).
Proof.
  intros H. destruct (binary_chars_bits _ H) as (bs & Hbs).
  exists (mkQuantumCircuit bit_str (map bit_qubit bs)).
  split; [apply (init_bits bit_str bs Hbs)|]. simpl.
  split; [reflexivity|].
  split; [rewrite string_length_chars, Hbs, !length_map; reflexivity|].
  intros i c Hc. rewrite Hbs in Hc.
  rewrite list_lookup_fmap in Hc. rewrite list_lookup_fmap.
  destruct (bs !! i) as [b|]; [|discriminate Hc].
  simpl in *. injection Hc as <-. rewrite bit_char_is_one. reflexivity.
Qed.

Lemma init_builds_basis_register_witness :
  Forall binary_digit (list_ascii_of_string "01") /\
  exists self : QuantumCircuit,
    __init__ "01" = Ok self /\
    _bit_str self = "01"%string /\
    length (_qubit_array self) = String.length "01" /\
    forall (i : nat) (c : ascii),
      list_ascii_of_string "01" !! i = Some c ->
      _qubit_array self !! i = Some (if Ascii.eqb c "1" then q_one else q_zero).
Proof.
  assert (H : Forall binary_digit (list_ascii_of_string "01"))
    by (simpl; repeat constructor; unfold binary_digit; auto).
  split; [exact H | apply (init_builds_basis_register "01" H)].
Defined.

Lemma gate_call_keeps_shape (g : gate_name) (bit : Z) (self : QuantumCircuit) :
  _bit_str (gate_call g bit self).2 = _bit_str self /\
  length (_qubit_array (gate_call g bit self).2) = length (_qubit_array self).
Proof.
  rewrite gate_call_apply. unfold apply_matrix.
  destruct (py_index _ bit) as [i|e]; [|split; reflexivity].
  destruct (_qubit_array self !! i) as [qb|]; [|split; reflexivity].
  simpl. split; [reflexivity | apply length_insert].
Qed.

(** X7.  Whatever gate calls a caller makes on a register built by
    [__init__], in whatever order, with valid or invalid indices, the
    stored bit string stays the input string and the number of qubits
    stays the number of its characters. *)
Theorem gate_run_keeps_shape (bit_str : string) (self : QuantumCircuit)
  (calls : list (gate_name * Z)) :
  __init__ bit_str = Ok self ->
  _bit_str (gate_run calls self) = bit_str /\
  length (_qubit_array (gate_run calls self)) = String.length bit_str.
Proof.
  intros Hinit.
  assert (H0 : _bit_str self = bit_str
               /\ length (_qubit_array self) = String.length bit_str).
  { destruct (init_ok _ _ Hinit) as (bs & Hbs & ->). simpl.
    split; [reflexivity|].
    rewrite string_length_chars, Hbs, !length_map. reflexivity. }
  clear Hinit. revert self H0.
  induction calls as [|[g bit] calls IH]; intros self H0; [exact H0|].
  simpl. apply IH.
  destruct (gate_call_keeps_shape g bit self) as [E1 E2].
  rewrite E1, E2. exact H0.
Qed.

Lemma gate_run_keeps_shape_witness :
  __init__ "01" = Ok reg_01 /\
  _bit_str (gate_run [(GHadamard, 0%Z); (GX, 5%Z); (GY, (-1)%Z)] reg_01) = "01"%string /\
  length (_qubit_array (gate_run [(GHadamard, 0%Z); (GX, 5%Z); (GY, (-1)%Z)] reg_01))
  = String.length "01".
Proof.
  split; [exact init_01|].
  apply (gate_run_keeps_shape "01" reg_01
           [(GHadamard, 0%Z); (GX, 5%Z); (GY, (-1)%Z)] init_01).
Defined.

(** * Further properties of probabilities *)

Lemma index_of_bits_inj (bs : list bool) :
  forall bs' : list bool, length bs' = length bs ->
    index_of_bits bs' = index_of_bits bs -> bs' = bs.
Proof.
  induction bs as [|b r IH]; intros [|b' r'] Hl Hi; try discriminate; [reflexivity|].
  simpl in Hl. injection Hl as Hl.
  rewrite !index_of_bits_cons, Hl in Hi.
  pose proof (index_of_bits_bound r) as Hr.
  pose proof (index_of_bits_bound r') as Hr'. rewrite Hl in Hr'.
  destruct b, b'; try lia; f_equal; apply IH; solve [exact Hl | lia].
Qed.

(** Every index below [2^n] is written by [n] bits. *)
Lemma bits_of_index (n k : nat) :
  1 <= n -> k < 2 ^ n -> exists bs : list bool, length bs = n /\ index_of_bits bs = k.
Proof.
  intros Hn Hk. destruct (outcome_text n k Hn Hk) as (bs & Hl & Hi & _). eauto.
Qed.

(** The vector that probabilities returns, on any register. *)
Lemma probabilities_shape (self : QuantumCircuit) (w : list R) :
  (probabilities self).1 = Ok w ->
  length w = 2 ^ length (_qubit_array self) /\ Forall (fun p => (0 <= p)%R) w.
Proof.
  destruct self as [bit_str [|q0 qs]]; [discriminate|].
  rewrite probabilities_cons. intros [= <-]. simpl _qubit_array.
  split; [rewrite length_map, length_kron_rest; simpl; lia | apply weights_nonneg].
Qed.

(** X8.  On the register built from a nonempty string of '0' and '1'
    characters, before any gate call, probabilities returns the vector of
    length [2^n] that is 1 at the index the string writes in binary and
    0 at every other index. *)
Theorem fresh_register_probabilities (bit_str : string) (self : QuantumCircuit) :
  __init__ bit_str = Ok self -> bit_str <> EmptyString ->
  exists w : list R,
    (probabilities self).1 = Ok w /\
    length w = 2 ^ String.length bit_str /\
    forall k : nat, k < 2 ^ String.length bit_str ->
      w !! k = Some (if Nat.eqb k (binary_value bit_str) then 1%R else 0%R).
Proof.
  intros Hinit Hne.
  assert (Hr : reachable self) by (eapply reach_init; exact Hinit).
  destruct (init_ok _ _ Hinit) as (bs & Hchars & ->).
  pose proof (binary_value_bits _ _ Hchars) as Hval.
  assert (Hlen : String.length bit_str = length bs)
    by (rewrite string_length_chars, Hchars, length_map; reflexivity).
  assert (Hbs : bs <> []).
  { intros ->. apply Hne. destruct bit_str; [reflexivity | discriminate Hchars]. }
  destruct (reachable_probabilities _ Hr) as (w & Hp & Hw & _);
    [simpl; destruct bs; [congruence | discriminate]|].
  simpl _qubit_array in Hw. rewrite length_map in Hw.
  exists w. split; [exact Hp|]. rewrite Hlen, Hval. split; [exact Hw|].
  intros k Hk.
  destruct (bits_of_index (length bs) k) as (bs' & Hl & <-);
    [destruct bs; [congruence | simpl; lia] | exact Hk |].
  pose proof (basis_weights bit_str bs bs' w Hbs Hl Hp) as E.
  pose proof (basis_weights bit_str bs bs w Hbs eq_refl Hp) as E1.
  rewrite bool_decide_eq_true_2 in E1 by reflexivity.
  rewrite E. case_bool_decide as Hd.
  - subst bs'. rewrite Nat.eqb_refl. reflexivity.
  - destruct (Nat.eqb_spec (index_of_bits bs') (index_of_bits bs)) as [Heq | _];
      [|reflexivity].
    exfalso. apply Hd. symmetry. apply index_of_bits_inj; assumption.
Qed.

Lemma fresh_register_probabilities_witness :
  __init__ "01" = Ok reg_01 /\ "01"%string <> EmptyString /\
  exists w : list R,
    (probabilities reg_01).1 = Ok w /\
    length w = 2 ^ String.length "01" /\
    forall k : nat, k < 2 ^ String.length "01" ->
      w !! k = Some (if Nat.eqb k (binary_value "01") then 1%R else 0%R).
Proof.
  assert (Hne : "01"%string <> EmptyString) by discriminate.
  split; [reflexivity|]. split; [exact Hne|].
  apply (fresh_register_probabilities "01" reg_01 init_01 Hne).
Defined.

Section Product.
Local Open Scope R_scope.

Lemma norm2_fold_Cmul (qs : list Qubit) :
  forall (bs : list bool) (u : C),
    norm2 (fold_left Cmul (zip_with amp qs bs) u)
    = norm2 u * outcome_probability qs bs.
Proof.
  unfold outcome_probability.
  induction qs as [|qb qs IH]; intros bs u; [simpl; ring|].
  destruct bs as [|b bs]; [simpl; ring|]. simpl.
  rewrite IH, norm2_Cmul. ring.
Qed.

End Product.

(** X9.  In exact arithmetic, in a register reached from construction by
    gate calls, the weight that probabilities returns at the index written
    by the bits [bs] is the product, over the qubits, of the squared
    magnitude of each qubit's amplitude for its own bit: the qubits are
    independent. *)
Theorem reachable_probability_product (self : QuantumCircuit) (w : list R)
  (bs : list bool) :
  reachable self -> (probabilities self).1 = Ok w ->
  length bs = length (_qubit_array self) ->
  w !! index_of_bits bs = Some (outcome_probability (_qubit_array self) bs).
Proof.
  intros Hr Hp Hl.
  pose proof (reachable_same_phase self Hr) as Hph.
  destruct self as [bit_str [|q0 qs]]; [discriminate Hp|].
  simpl _qubit_array in *.
  destruct bs as [|b0 bs]; [discriminate Hl|]. simpl in Hl. injection Hl as Hl.
  rewrite probabilities_cons in Hp. injection Hp as <-.
  pose proof (joint_cons (state q0) (map state qs)) as Hj.
  pose proof (joint_real_or_imag (q0 :: qs) _ Hph Hj) as Hri.
  assert (Hat : kron_rest (state q0) (map state qs) !! index_of_bits (b0 :: bs)
                = Some (fold_left Cmul (zip_with amp qs bs) (amp q0 b0))).
  { unfold index_of_bits. simpl fold_left at 1.
    apply kron_rest_lookup; [exact Hl | destruct b0; reflexivity]. }
  rewrite list_lookup_fmap, Hat. simpl. f_equal.
  rewrite (weight_norm2 _ (Forall_lookup_1 _ _ _ _ Hri Hat)).
  rewrite norm2_fold_Cmul. unfold outcome_probability. simpl. reflexivity.
Qed.

Lemma reachable_probability_product_witness :
  reachable reg_0_y /\
  (probabilities reg_0_y).1 = Ok (map weight (state (dot y_gate q_zero))) /\
  length [true] = length (_qubit_array reg_0_y) /\
  map weight (state (dot y_gate q_zero)) !! index_of_bits [true]
  = Some (outcome_probability (_qubit_array reg_0_y) [true]).
Proof.
  assert (Hp : (probabilities reg_0_y).1 = Ok (map weight (state (dot y_gate q_zero))))
    by (apply (probabilities_cons "0" (dot y_gate q_zero) [])).
  split; [exact reachable_reg_0_y|]. split; [exact Hp|]. split; [reflexivity|].
  apply (reachable_probability_product reg_0_y _ [true] reachable_reg_0_y Hp eq_refl).
Defined.

(** * Further properties of measure *)

Lemma binary_value_bit_string (bs : list bool) :
  binary_value (bit_string bs) = index_of_bits bs.
Proof. apply binary_value_bits, bit_string_chars. Qed.

(** X10.  For [n >= 1] the list of outcomes that measure draws from has
    [2^n] entries, and the entry at index [i], written back with [str] and
    [zfill(n)], is the text of [i] in [n] binary digits: a string of [n]
    characters '0' and '1' that writes [i] in binary. *)
Theorem outcome_list_round_trip (n : nat) :
  1 <= n ->
  exists states : list Z,
    state_list n = Ok states /\ length states = 2 ^ n /\
    forall (i : nat) (v : Z), states !! i = Some v ->
      zfill n (str v) = zfill n (format_b (Z.of_nat i)) /\
      String.length (zfill n (str v)) = n /\
      Forall binary_digit (list_ascii_of_string (zfill n (str v))) /\
      binary_value (zfill n (str v)) = i.
Proof.
  intros Hn. destruct (state_list_ok n Hn) as (states & Hst & Hlen & Hent).
  exists states. split; [exact Hst|]. split; [exact Hlen|].
  intros i v Hv. destruct (Hent i v Hv) as (bs & Hl & Hi & _ & Hz).
  assert (Hk : i < 2 ^ n) by (rewrite <- Hlen; eapply lookup_lt_Some; exact Hv).
  destruct (outcome_text n i Hn Hk) as (bs' & Hl' & Hi' & Hf).
  assert (E : bs' = bs) by (apply index_of_bits_inj; congruence).
  subst bs'. rewrite Hz, Hf.
  split; [reflexivity|]. split; [rewrite bit_string_length; exact Hl|].
  split; [apply bit_string_binary | rewrite binary_value_bit_string; exact Hi].
Qed.

Lemma outcome_list_round_trip_witness :
  1 <= 2 /\
  exists states : list Z,
    state_list 2 = Ok states /\ length states = 2 ^ 2 /\
    forall (i : nat) (v : Z), states !! i = Some v ->
      zfill 2 (str v) = zfill 2 (format_b (Z.of_nat i)) /\
      String.length (zfill 2 (str v)) = 2 /\
      Forall binary_digit (list_ascii_of_string (zfill 2 (str v))) /\
      binary_value (zfill 2 (str v)) = i.
Proof.
  assert (H : 1 <= 2) by lia.
  split; [exact H | apply (outcome_list_round_trip 2 H)].
Defined.

(** X11.  On a register whose number of qubits is not 20 and whose weights
    sum to 1, measure returns exactly the strings of [n] characters '0' and
    '1' whose index, read in binary, has a positive weight: an outcome of
    weight 0 is never returned and every outcome of positive weight can
    be. *)
Theorem measure_support (self : QuantumCircuit) (w : list R) (s : string) :
  (probabilities self).1 = Ok w -> sum_list w = 1%R ->
  length (_qubit_array self) <> 20 ->
  (measure self (Ok s) self
   <-> String.length s = length (_qubit_array self) /\
       Forall binary_digit (list_ascii_of_string s) /\
       exists p : R, w !! binary_value s = Some p /\ (0 < p)%R).
Proof.
  intros Hp Hsum Hn. destruct (probabilities_shape self w Hp) as [Hlen Hpos].
  split.
  - intros Hm.
    destruct (measure_returns _ _ _ Hm)
      as (w' & p & bs & text & Hp' & Hw & Hgt & Hl & Hz & Ht & ->).
    rewrite Hp in Hp'. injection Hp' as <-. rewrite <- Hl in Hn.
    rewrite (str_element_int _ _ _ Hn Ht), Hz.
    split; [rewrite bit_string_length; exact Hl|].
    split; [apply bit_string_binary|].
    exists p. rewrite binary_value_bit_string. auto.
  - intros (Hl & Hbin & p & Hw & Hgt).
    destruct (binary_chars_bits _ Hbin) as (bs & Hbs).
    apply bit_string_of_chars in Hbs. subst s.
    rewrite bit_string_length in Hl. rewrite binary_value_bit_string in Hw.
    destruct (measure_may_return self w _ p Hp Hlen Hpos Hsum Hw Hgt)
      as (bs' & Hl' & Hi' & Hm).
    assert (E : bs' = bs) by (apply index_of_bits_inj; congruence). subst bs'.
    assert (Hne : bs <> []).
    { pose proof (probabilities_ok_nonempty self w Hp). destruct bs; [simpl in Hl; lia | discriminate]. }
    destruct (int_str_bit_string bs Hne) as [_ Hz]. rewrite <- Hz.
    apply Hm. unfold outcome_element.
    destruct (Nat.eqb_spec (length bs) 20); [lia | apply str_int].
Qed.

Lemma measure_support_witness :
  (probabilities reg_01).1 = Ok [0; 1; 0; 0]%R /\
  sum_list [0; 1; 0; 0]%R = 1%R /\
  length (_qubit_array reg_01) <> 20 /\
  (measure reg_01 (Ok "01"%string) reg_01
   <-> String.length "01" = length (_qubit_array reg_01) /\
       Forall binary_digit (list_ascii_of_string "01") /\
       exists p : R, [0; 1; 0; 0]%R !! binary_value "01" = Some p /\ (0 < p)%R).
Proof.
  assert (Hs : sum_list [0; 1; 0; 0]%R = 1%R) by (unfold sum_list; simpl; lra).
  assert (Hn : length (_qubit_array reg_01) <> 20) by (simpl; lia).
  split; [exact probabilities_reg_01|]. split; [exact Hs|]. split; [exact Hn|].
  apply (measure_support reg_01 _ "01" probabilities_reg_01 Hs Hn).
Defined.

Section Flip.
Local Open Scope R_scope.

Lemma dot_x_bit_qubit (b : bool) : dot x_gate (bit_qubit b) = bit_qubit (negb b).
Proof.
  destruct b; unfold dot, x_gate, bit_qubit, q_one, q_zero, C0, C1; simpl;
    f_equal; apply C_eq; simpl; ring.
Qed.

End Flip.

Lemma flip_bit_qubits (bs : list bool) :
  forall (i : nat) (b : bool), bs !! i = Some b ->
    <[i := bit_qubit (negb b)]> (map bit_qubit bs) = map bit_qubit (flip_bit i bs).
Proof.
  unfold flip_bit.
  induction bs as [|b0 bs IH]; intros i b Hi; [discriminate Hi|].
  destruct i as [|i]; simpl in *.
  - injection Hi as ->. reflexivity.
  - f_equal. apply IH, Hi.
Qed.

(** X12.  Take the register built from the bits [bs], of a length other
    than 20, and call x once at an index [bit] of it.  The call returns;
    the stored bit string is still the input; and measure on the register
    after the call can return the input with the character at [bit]
    inverted and returns nothing else. *)
Theorem x_flips_measured_bit (bs : list bool) (bit : Z) :
  (0 <= bit < Z.of_nat (length bs))%Z -> length bs <> 20 ->
  exists self self1 : QuantumCircuit,
    __init__ (bit_string bs) = Ok self /\
    x bit self = (Ok tt, self1) /\
    _bit_str self1 = bit_string bs /\
    measure self1 (Ok (bit_string (flip_bit (Z.to_nat bit) bs))) self1 /\
    forall out self', measure self1 out self' ->
      out = Ok (bit_string (flip_bit (Z.to_nat bit) bs)).
Proof.
  intros Hbit Hn.
  pose proof (init_bits (bit_string bs) bs (bit_string_chars bs)) as Hinit.
  set (self := mkQuantumCircuit (bit_string bs) (map bit_qubit bs)) in *.
  destruct (apply_matrix_valid x_gate bit self) as (qb & Hq & Hcall);
    [simpl; rewrite length_map; exact Hbit|].
  simpl in Hq. rewrite list_lookup_fmap in Hq.
  destruct (bs !! Z.to_nat bit) as [b|] eqn:Hb; [|discriminate Hq].
  simpl in Hq. injection Hq as <-.
  rewrite dot_x_bit_qubit in Hcall. simpl in Hcall.
  rewrite (flip_bit_qubits bs _ b Hb) in Hcall.
  set (bs' := flip_bit (Z.to_nat bit) bs) in *.
  set (self1 := mkQuantumCircuit (bit_string bs) (map bit_qubit bs')) in *.
  assert (Hl : length bs' = length bs) by apply length_alter.
  assert (Hne : bs' <> []).
  { intros E. rewrite E in Hl. simpl in Hl. lia. }
  assert (Hr : reachable self1).
  { apply (reach_gate GX bit self self1); [eapply reach_init; exact Hinit | exact Hcall]. }
  destruct (measure_fresh_register (bit_string bs) bs' Hne Hr) as [Hcan Honly].
  destruct (int_str_bit_string bs' Hne) as [_ Hz].
  assert (Hel : outcome_element (length bs') (decimal_of_bits bs')
                = IntElem (decimal_of_bits bs')).
  { unfold outcome_element. destruct (Nat.eqb_spec (length bs') 20); [lia | reflexivity]. }
  exists self, self1. split; [exact Hinit|]. split; [exact Hcall|].
  split; [reflexivity|]. split.
  - rewrite <- Hz. apply Hcan. rewrite Hel. apply str_int.
  - intros out self' Hm. destruct (Honly out self' Hm) as (text & Ht & ->).
    rewrite Hel in Ht. inversion Ht; subst. rewrite Hz. reflexivity.
Qed.

Lemma x_flips_measured_bit_witness :
  (0 <= 1 < Z.of_nat (length [false; true; true]))%Z /\
  length [false; true; true] <> 20 /\
  exists self self1 : QuantumCircuit,
    __init__ (bit_string [false; true; true]) = Ok self /\
    x 1 self = (Ok tt, self1) /\
    _bit_str self1 = bit_string [false; true; true] /\
    measure self1 (Ok (bit_string (flip_bit (Z.to_nat 1) [false; true; true]))) self1 /\
    forall out self', measure self1 out self' ->
      out = Ok (bit_string (flip_bit (Z.to_nat 1) [false; true; true])).
Proof.
  assert (H : (0 <= 1 < Z.of_nat (length [false; true; true]))%Z) by (simpl; lia).
  assert (Hn : length [false; true; true] <> 20) by (simpl; lia).
  split; [exact H|]. split; [exact Hn|].
  apply (x_flips_measured_bit [false; true; true] 1 H Hn).
Defined.

(** * Gates and the weights *)

Section Sign.
Local Open Scope R_scope.

Lemma same_up_to_sign_refl (u : C) : same_up_to_sign u u.
Proof. left; reflexivity. Qed.

Lemma Cmul_Cneg_l (u v : C) : Cmul (Cneg u) v = Cneg (Cmul u v).
Proof. apply C_eq; simpl; ring. Qed.

Lemma Cmul_Cneg_r (u v : C) : Cmul u (Cneg v) = Cneg (Cmul u v).
Proof. apply C_eq; simpl; ring. Qed.

Lemma Cneg_Cneg (u : C) : Cneg (Cneg u) = u.
Proof. apply C_eq; simpl; ring. Qed.

Lemma same_up_to_sign_Cmul (u u' v v' : C) :
  same_up_to_sign u u' -> same_up_to_sign v v' ->
  same_up_to_sign (Cmul u v) (Cmul u' v').
Proof.
  unfold same_up_to_sign. intros [-> | ->] [-> | ->];
    rewrite ?Cmul_Cneg_l, ?Cmul_Cneg_r, ?Cneg_Cneg; auto.
Qed.

Lemma weight_Cneg (u : C) : weight (Cneg u) = weight u.
Proof. rewrite !weight_unfold; simpl. f_equal. ring. Qed.

Lemma weight_same_up_to_sign (u v : C) : same_up_to_sign u v -> weight v = weight u.
Proof. intros [-> | ->]; [reflexivity | apply weight_Cneg]. Qed.

Lemma dot_z_state (qb : Qubit) :
  Forall2 same_up_to_sign (state qb) (state (dot z_gate qb)).
Proof.
  destruct qb as [[r0 i0] [r1 i1]]. unfold state, dot, z_gate; simpl.
  constructor; [|constructor; [|constructor]].
  - left. apply C_eq; simpl; ring.
  - right. apply C_eq; simpl; ring.
Qed.

End Sign.

Lemma kron_same_up_to_sign (a a' b b' : list C) :
  Forall2 same_up_to_sign a a' -> Forall2 same_up_to_sign b b' ->
  Forall2 same_up_to_sign (kron a b) (kron a' b').
Proof.
  intros Ha Hb. unfold kron.
  induction Ha as [|u u' a a' Hu _ IH]; simpl; [constructor|].
  apply Forall2_app; [|exact IH].
  clear IH. induction Hb as [|v v' b b' Hv _ IHb]; simpl; constructor;
    [apply same_up_to_sign_Cmul; assumption | exact IHb].
Qed.

Lemma kron_rest_same_up_to_sign (q q' : list (list C)) :
  Forall2 (Forall2 same_up_to_sign) q q' ->
  forall t t', Forall2 same_up_to_sign t t' ->
    Forall2 same_up_to_sign (kron_rest t q) (kron_rest t' q').
Proof.
  induction 1 as [|q0 q0' q q' H0 _ IH]; intros t t' Ht; simpl; [exact Ht|].
  apply IH, kron_same_up_to_sign; assumption.
Qed.

Lemma map_weight_same_up_to_sign (l l' : list C) :
  Forall2 same_up_to_sign l l' -> map weight l' = map weight l.
Proof.
  induction 1 as [|u u' l l' Hu _ IH]; simpl; [reflexivity|].
  rewrite IH, (weight_same_up_to_sign u u' Hu). reflexivity.
Qed.

(** Registers whose qubits agree up to the sign of each amplitude give the
    same weights. *)
Lemma probabilities_same_up_to_sign (s1 s2 : string) (qs qs' : list Qubit) :
  Forall2 (fun qb qb' => Forall2 same_up_to_sign (state qb) (state qb')) qs qs' ->
  (probabilities (mkQuantumCircuit s2 qs')).1 = (probabilities (mkQuantumCircuit s1 qs)).1.
Proof.
  intros H. destruct H as [|q0 q0' qs qs' H0 H]; [reflexivity|].
  rewrite !probabilities_cons. f_equal.
  apply map_weight_same_up_to_sign, kron_rest_same_up_to_sign; [|exact H0].
  induction H; simpl; constructor; assumption.
Qed.

(** X13.  A call of z, at any index, does not change what probabilities
    returns: the weights after the call are the weights before it. *)
Theorem z_keeps_probabilities (bit : Z) (self : QuantumCircuit) :
  (probabilities (z bit self).2).1 = (probabilities self).1.
Proof.
  unfold z, apply_matrix.
  destruct (py_index _ bit) as [i|e]; [|reflexivity].
  destruct (_qubit_array self !! i) as [qb|] eqn:Hq; [|reflexivity].
  simpl. destruct self as [bit_str qs]. simpl in *.
  apply probabilities_same_up_to_sign.
  rewrite <- (list_insert_id qs i qb Hq) at 1.
  apply Forall2_insert; [|apply dot_z_state].
  apply Forall_Forall2_diag, Forall_forall. intros q _.
  apply Forall_Forall2_diag, Forall_forall. intros u _. apply same_up_to_sign_refl.
Qed.

Section Hadamard.
Local Open Scope R_scope.

Lemma norm2_hadamard_bit (b b' : bool) :
  norm2 (amp (dot hadamard_gate (bit_qubit b)) b') = / 2.
Proof.
  rewrite dot_hadamard. pose proof inv_sqrt2_sqr as E.
  destruct b, b'; unfold norm2; simpl;
    match goal with
    | |- ?l = _ => transitivity (/ sqrt 2 * / sqrt 2); [ring | exact E]
    end.
Qed.

Lemma norm2_amp_bit_qubit (b b' : bool) :
  norm2 (amp (bit_qubit b) b') = if bool_decide (b = b') then 1 else 0.
Proof. destruct b, b'; unfold norm2; simpl; ring. Qed.

Lemma outcome_probability_cons (qb : Qubit) (qs : list Qubit) (b : bool) (bs : list bool) :
  outcome_probability (qb :: qs) (b :: bs)
  = norm2 (amp qb b) * outcome_probability qs bs.
Proof. reflexivity. Qed.

Lemma outcome_probability_basis (bs : list bool) :
  forall bs' : list bool, length bs' = length bs ->
    outcome_probability (map bit_qubit bs) bs'
    = if bool_decide (bs = bs') then 1 else 0.
Proof.
  induction bs as [|b bs IH]; intros [|b' bs'] Hl; try discriminate; [reflexivity|].
  change (map bit_qubit (b :: bs)) with (bit_qubit b :: map bit_qubit bs).
  rewrite outcome_probability_cons, IH by (simpl in Hl; lia).
  rewrite norm2_amp_bit_qubit.
  repeat case_bool_decide; simplify_eq; try ring; congruence.
Qed.

Lemma outcome_probability_hadamard (bs : list bool) :
  forall (i : nat) (b : bool) (bs' : list bool),
    bs !! i = Some b -> length bs' = length bs ->
    outcome_probability (<[i := dot hadamard_gate (bit_qubit b)]> (map bit_qubit bs)) bs'
    = if bool_decide (<[i := b]> bs' = bs) then / 2 else 0.
Proof.
  induction bs as [|b0 bs IH]; intros i b [|b' bs'] Hi Hl; try discriminate.
  destruct i as [|i].
  - injection Hi as ->.
    change (<[0%nat := dot hadamard_gate (bit_qubit b)]> (map bit_qubit (b :: bs)))
      with (dot hadamard_gate (bit_qubit b) :: map bit_qubit bs).
    change (<[0%nat := b]> (b' :: bs')) with (b :: bs').
    rewrite outcome_probability_cons, norm2_hadamard_bit.
    rewrite outcome_probability_basis by (simpl in Hl; lia).
    repeat case_bool_decide; simplify_eq; try ring; congruence.
  - change (<[S i := dot hadamard_gate (bit_qubit b)]> (map bit_qubit (b0 :: bs)))
      with (bit_qubit b0
            :: <[i := dot hadamard_gate (bit_qubit b)]> (map bit_qubit bs)).
    change (<[S i := b]> (b' :: bs')) with (b' :: <[i := b]> bs').
    rewrite outcome_probability_cons, (IH i b bs' Hi) by (simpl in Hl; lia).
    rewrite norm2_amp_bit_qubit.
    repeat case_bool_decide; simplify_eq; try ring; congruence.
Qed.

End Hadamard.

(** X14.  In exact arithmetic: take the register built from the bits [bs]
    and call hadamard once at an index [bit] of it.  The call returns, and
    probabilities then gives the weight 1/2 to the index written by every
    list of bits that agrees with [bs] at all places but possibly [bit]
    (there are two), and the weight 0 to every other. *)
Theorem hadamard_splits_weight (bs bs' : list bool) (bit : Z) (b : bool) :
  (0 <= bit < Z.of_nat (length bs))%Z ->
  bs !! Z.to_nat bit = Some b -> length bs' = length bs ->
  exists (self self1 : QuantumCircuit) (w : list R),
    __init__ (bit_string bs) = Ok self /\
    hadamard bit self = (Ok tt, self1) /\
    (probabilities self1).1 = Ok w /\
    w !! index_of_bits bs'
    = Some (if bool_decide (<[Z.to_nat bit := b]> bs' = bs) then (/ 2)%R else 0%R).
Proof.
  intros Hbit Hb Hl.
  pose proof (init_bits (bit_string bs) bs (bit_string_chars bs)) as Hinit.
  set (self := mkQuantumCircuit (bit_string bs) (map bit_qubit bs)) in *.
  destruct (apply_matrix_valid hadamard_gate bit self) as (qb & Hq & Hcall);
    [simpl; rewrite length_map; exact Hbit|].
  simpl in Hq. rewrite list_lookup_fmap, Hb in Hq. simpl in Hq. injection Hq as <-.
  simpl in Hcall.
  set (self1 := mkQuantumCircuit _ _) in Hcall.
  assert (Hr : reachable self1).
  { apply (reach_gate GHadamard bit self self1);
      [eapply reach_init; exact Hinit | exact Hcall]. }
  destruct (reachable_probabilities self1 Hr) as (w & Hp & Hw & Hpos & Hsum).
  { subst self1. simpl. intros E. apply (f_equal length) in E.
    rewrite length_insert, length_map in E. simpl in E. lia. }
  exists self, self1, w. split; [exact Hinit|]. split; [exact Hcall|].
  split; [exact Hp|].
  pose proof (reachable_same_phase self1 Hr) as Hph.
  assert (Hlen : length bs' = length (_qubit_array self1))
    by (subst self1; simpl; rewrite length_insert, length_map; exact Hl).
  rewrite <- (outcome_probability_hadamard bs _ b bs' Hb Hl).
  clear Hw Hpos Hsum.
  destruct (_qubit_array self1) as [|q0 qs] eqn:Harr; [destruct bs'; simpl in *; lia|].
  assert (Hp' : (probabilities self1).1
                = Ok (map weight (kron_rest (state q0) (map state qs)))).
  { destruct self1 as [s1 a1]. simpl in Harr. subst a1. apply probabilities_cons. }
  rewrite Hp in Hp'. injection Hp' as ->.
  destruct bs' as [|b0 bs']; [discriminate Hlen|]. simpl in Hlen. injection Hlen as Hlen.
  pose proof (joint_cons (state q0) (map state qs)) as Hj.
  pose proof (joint_real_or_imag (q0 :: qs) _ Hph Hj) as Hri.
  assert (Hat : kron_rest (state q0) (map state qs) !! index_of_bits (b0 :: bs')
                = Some (fold_left Cmul (zip_with amp qs bs') (amp q0 b0))).
  { unfold index_of_bits. simpl fold_left at 1.
    apply kron_rest_lookup; [exact Hlen | destruct b0; reflexivity]. }
  rewrite list_lookup_fmap, Hat. simpl. f_equal.
  rewrite (weight_norm2 _ (Forall_lookup_1 _ _ _ _ Hri Hat)).
  rewrite norm2_fold_Cmul. subst self1. simpl in Harr. rewrite Harr.
  unfold outcome_probability. simpl. reflexivity.
Qed.

Lemma hadamard_splits_weight_witness :
  (0 <= 0 < Z.of_nat (length [false]))%Z /\
  [false] !! Z.to_nat 0 = Some false /\ length [true] = length [false] /\
  exists (self self1 : QuantumCircuit) (w : list R),
    __init__ (bit_string [false]) = Ok self /\
    hadamard 0 self = (Ok tt, self1) /\
    (probabilities self1).1 = Ok w /\
    w !! index_of_bits [true]
    = Some (if bool_decide (<[Z.to_nat 0 := false]> [true] = [false]) then (/ 2)%R else 0%R).
Proof.
  assert (H : (0 <= 0 < Z.of_nat (length [false]))%Z) by (simpl; lia).
  split; [exact H|]. split; [reflexivity|]. split; [reflexivity|].
  apply (hadamard_splits_weight [false] [true] 0 false H eq_refl eq_refl).
Defined.

(** * Construction from a string that is no bit string *)

Lemma init_loop_bad_char (bs : list bool) (c : ascii) (rest : list ascii)
  (arr : list Qubit) :
  int_of_char c = Raise ValueError ->
  init_loop (map bit_char bs ++ c :: rest) arr = Raise ValueError.
Proof.
  intros Hc. revert arr. induction bs as [|b bs IH]; intros arr; simpl.
  - rewrite Hc. reflexivity.
  - destruct b; simpl; apply IH.
Qed.

(** X15.  When the first character of the input that is not '0' or '1' is
    an ASCII character (code point below 128) that is no decimal digit,
    [__init__] raises the [ValueError] of [int] and builds no register. *)
Theorem init_rejects_non_digit (bit_str : string) (bs : list bool) (c : ascii)
  (rest : list ascii) :
  list_ascii_of_string bit_str = map bit_char bs ++ c :: rest ->
  nat_of_ascii c < 128 ->
  (nat_of_ascii c < 48 \/ 57 < nat_of_ascii c) ->
  __init__ bit_str = Raise ValueError.
Proof.
  intros Hs _ Hc. unfold __init__. rewrite Hs, init_loop_bad_char; [reflexivity|].
  unfold int_of_char.
  destruct (Nat.leb_spec 48 (nat_of_ascii c)), (Nat.leb_spec (nat_of_ascii c) 57);
    simpl; try reflexivity; lia.
Qed.

Lemma init_rejects_non_digit_witness :
  list_ascii_of_string "01a1" = map bit_char [false; true] ++ "a"%char :: ["1"%char] /\
  nat_of_ascii "a" < 128 /\
  (nat_of_ascii "a" < 48 \/ 57 < nat_of_ascii "a") /\
  __init__ "01a1" = Raise ValueError.
Proof.
  assert (Hs : list_ascii_of_string "01a1"
               = map bit_char [false; true] ++ "a"%char :: ["1"%char]) by reflexivity.
  assert (Ha : nat_of_ascii "a" < 128) by (vm_compute; lia).
  assert (Hc : nat_of_ascii "a" < 48 \/ 57 < nat_of_ascii "a")
    by (right; vm_compute; lia).
  split; [exact Hs|]. split; [exact Ha|]. split; [exact Hc|].
  apply (init_rejects_non_digit "01a1" [false; true] "a" ["1"%char] Hs Ha Hc).
Defined.
